(** * BTZen: connection layer, connection manager and serial transport

    A shallow embedding of the asynchronous core of BTZen
    ([btzen/serial.py], [btzen/bus.py], [btzen/cm.py]) and the properties
    of its credit ledger, notification table and enable/wait loop.

    Coroutines are modelled by what they do between two suspension
    points.  A call either returns, raises, or stays suspended on an
    awaitable that the environment never completes; the environment
    (frames delivered by the peer, answers of the native bus binding)
    is an explicit argument. *)

From stdpp Require Import gmap strings list fin_maps.
From Stdlib Require Import QArith Qround Qabs Lqa.
From Stdlib.Strings Require Import Byte Ascii.

Open Scope Z_scope.

(** ** Exceptions and outcomes of a call *)

(** The exception classes the modelled code raises or lets through.
    [NativeError] stands for whatever the native binding ([_btzen], [_cm])
    raises; [msg] is its [str()]. *)
Inductive exn : Type :=
| KeyError
| ValueError
| AssertionError
| TimeoutError
| ConnectionError (msg : string)
| ConfigurationError (msg : string)
| NativeError (msg : string).

Inductive outcome (A : Type) : Type :=
| Returned (a : A)
| Raised (e : exn)
| Suspended.

Arguments Returned {A} a.
Arguments Raised {A} e.
Arguments Suspended {A}.


(** ** Serial protocol engine ([btzen/serial.py]) *)

Module Serial.

(** [len(data)] as a Python int. *)
Definition len {A} (data : list A) : Z := Z.of_nat (length data).

(** [min(255, math.ceil((n - len(data)) / 20))].  The true division
    [/] is taken over the rationals; the floating-point quotient has the
    same ceiling as long as the dividend is below 2^53 in absolute
    value. *)
Definition credits_for (data : list byte) (n : Z) : Z :=
  Z.min 255 (Qceiling (inject_Z (n - len data) / inject_Z 20)).

Inductive characteristic : Type :=
| UUID_RX_UART | UUID_TX_UART | UUID_TX_CREDIT | UUID_RX_CREDIT.

(** What an observer of one [Serial] object sees, in order. *)
Inductive event : Type :=
| BtWrite (c : characteristic) (data : list byte)  (* [_write] completed *)
| Ledger (v : Z)                    (* [_rx_credits] was assigned [v] *)
| AwaitFrame (v : Z)                (* [await tx.get()] with ledger [v] *)
| GotFrame (item : list byte).      (* [tx.get()] delivered [item] *)

Record t : Type := mk { _rx_credits : Z; trace : list event }.

Definition log (e : event) (s : t) : t :=
  {| _rx_credits := _rx_credits s; trace := trace s ++ [e] |}.

Definition set_rx_credits (v : Z) (s : t) : t :=
  {| _rx_credits := v; trace := trace s ++ [Ledger v] |}.

(** [bytes([n])]: [ValueError] unless [n] is in [range(256)]. *)
Definition bytes1 (n : Z) : option (list byte) :=
  if (0 <=? n) && (n <? 256) then
    match Byte.of_N (Z.to_N n) with
    | Some b => Some [b]
    | None => None
    end
  else None.

(** [_write]: the native write is taken to complete. *)
Definition _write (c : characteristic) (data : list byte) (s : t) : t :=
  log (BtWrite c data) s.

Definition _add_rx_credits (n : Z) (s : t) : outcome unit * t :=
  match bytes1 n with
  | None => (Raised ValueError, s)
  | Some payload =>
      let s1 := _write UUID_RX_CREDIT payload s in
      (Returned tt, set_rx_credits (_rx_credits s1 + n) s1)
  end.

(** [_rx_credits_mgr], the part before [yield] ... *)
Definition _rx_credits_mgr_enter (data : list byte) (n : Z) (s : t)
  : outcome unit * t :=
  if _rx_credits s <? 1 then _add_rx_credits (credits_for data n) s
  else (Returned tt, s).

(** ... and its [finally] clause. *)
Definition _rx_credits_mgr_exit (s : t) : t :=
  set_rx_credits (_rx_credits s - 1) s.

(** The loop of [read].  [tx] holds the frames that the inbound-data
    channel [_tx_uart] delivers, in order; when it is exhausted
    [tx.get()] never completes. *)
Fixpoint read_loop (n : Z) (tx : list (list byte)) (data : list byte)
    (s : t) {struct tx} : outcome (list byte) * t * list (list byte) :=
  if len data <? n then
    match _rx_credits_mgr_enter data n s with
    | (Returned _, s1) =>
        let s2 := log (AwaitFrame (_rx_credits s1)) s1 in
        match tx with
        | [] => (Suspended, s2, [])
        | item :: tx' =>
            read_loop n tx' (data ++ item)
              (_rx_credits_mgr_exit (log (GotFrame item) s2))
        end
    | (Raised e, s1) => (Raised e, s1, tx)
    | (Suspended, s1) => (Suspended, s1, tx)
    end
  else if len data =? n then (Returned data, s, tx)
  else (Raised AssertionError, s, tx).

Definition read (n : Z) (tx : list (list byte)) (s : t)
  : outcome (list byte) * t * list (list byte) :=
  read_loop n tx [] s.

(** [connect]: [bus_connect] is the outcome of [await BUS.connect(mac)],
    [tx_credit] the notifications of the peer's credit channel. *)
Definition connect (bus_connect : outcome string)
    (tx_credit : list (list byte)) (s : t)
  : outcome unit * t * list (list byte) :=
  match bus_connect with
  | Returned _ =>
      let s0 := {| _rx_credits := 0; trace := trace s |} in
      match _add_rx_credits 32 s0 with
      | (Returned _, s1) =>
          match tx_credit with
          | [] => (Suspended, s1, [])
          | _ :: rest => (Returned tt, s1, rest)
          end
      | (o, s1) => (o, s1, tx_credit)
      end
  | Raised e => (Raised e, s, tx_credit)
  | Suspended => (Suspended, s, tx_credit)
  end.

(** [write]: [tx_credit] is the content of the credit queue at the time
    of the call, so [len(self._tx_credit)] is its length. *)
Definition write (data : list byte) (tx_credit : list (list byte)) (s : t)
  : outcome unit * t * list (list byte) :=
  if len data <=? 20 then
    match (if _rx_credits s <? 1 then _add_rx_credits 32 s
           else (Returned tt, s)) with
    | (Returned _, s1) =>
        let rest := match tx_credit with [] => [] | _ :: q => q end in
        (Returned tt, _write UUID_RX_UART data s1, rest)
    | (o, s1) => (o, s1, tx_credit)
    end
  else (Raised AssertionError, s, tx_credit).

(** Ghost accounting over a trace. *)

(** Credits granted to the peer: the values written to the credit
    characteristic. *)
Definition grant_of (e : event) : Z :=
  match e with
  | BtWrite UUID_RX_CREDIT [b] => Z.of_N (Byte.to_N b)
  | _ => 0
  end.

Definition granted (tr : list event) : Z :=
  foldr (fun e acc => grant_of e + acc) 0 tr.

Definition frames_received (tr : list event) : Z :=
  foldr (fun e acc => match e with GotFrame _ => 1 + acc | _ => acc end) 0 tr.

(** The ledger is never observed negative, and a frame is only awaited
    with at least one credit outstanding. *)
Definition ledger_ok (e : event) : Prop :=
  match e with
  | Ledger v => 0 <= v
  | AwaitFrame v => 1 <= v
  | _ => True
  end.

(** The ledger never exceeds what has been granted. *)
Definition wf (s : t) : Prop :=
  0 <= _rx_credits s <= granted (trace s).

Definition init : t := {| _rx_credits := 0; trace := [] |}.

(** Sample data: a full link frame, and a session right after
    [connect] (the initial grant of 32 is written, the peer has
    answered with its first credit notification). *)
Definition frame20 : list byte := replicate 20 x00.

Definition connected : t :=
  (connect (Returned "OSTC 2"%string) [[x08]] init).1.2.

End Serial.

(** ** Coroutines over a state

    A coroutine function applied to its arguments is a coroutine object:
    a computation that has not started.  Nothing of its body runs until
    it is awaited, which here is running the computation on the current
    state. *)

Definition M (S A : Type) : Type := S -> outcome A * S.

#[export] Instance M_ret {S} : MRet (M S) :=
  fun A (a : A) s => (Returned a, s).

#[export] Instance M_bind {S} : MBind (M S) :=
  fun A B (k : A -> M S B) (m : M S A) s =>
    match m s with
    | (Returned a, s1) => k a s1
    | (Raised e, s1) => (Raised e, s1)
    | (Suspended, s1) => (Suspended, s1)
    end.

Definition raise {S A} (e : exn) : M S A := fun s => (Raised e, s).

Definition suspend {S A} : M S A := fun s => (Suspended, s).

Definition modify {S} (f : S -> S) : M S unit := fun s => (Returned tt, f s).

Definition gets {S A} (f : S -> A) : M S A := fun s => (Returned (f s), s).

(** [try: m except Exception as ex: h ex else: k]; the [else] clause is
    outside the reach of the handler. *)
Definition try_except_else {S A B} (m : M S A) (h : exn -> M S B)
    (k : A -> M S B) : M S B :=
  fun s =>
    match m s with
    | (Returned a, s1) => k a s1
    | (Raised e, s1) => h e s1
    | (Suspended, s1) => (Suspended, s1)
    end.

(** [try: m finally: fin].  A coroutine that stays suspended in [m]
    never reaches [fin]. *)
Definition try_finally {S A} (m : M S A) (fin : M S unit) : M S A :=
  fun s =>
    match m s with
    | (Returned a, s1) => (_ ← fin; mret a) s1
    | (Raised e, s1) => (_ ← fin; raise e) s1
    | (Suspended, s1) => (Suspended, s1)
    end.

(** [task.close()] for a coroutine object that was never awaited, or
    that has run to its end: nothing of its body runs. *)
Definition close {S A} (task : M S A) : M S unit := mret tt.

(** ** The native binding's property monitor *)

(** A value carried by a change notification. *)
Inductive value : Type :=
| VBool (b : bool)
| VBytes (data : list byte).

(** The object that [_btzen.bt_property_monitor_start] returns, with the
    methods [bus.py] calls on it.  The methods mutate the object; here
    they return its new state.  [monitor_get] is [None] when no value is
    queued for the property, in which case the caller stays suspended. *)
Class PropertyMonitor (Mon : Type) : Type := {
  monitor_start : string -> string -> Mon;
  monitor_is_registered : Mon -> string -> bool;
  monitor_register : Mon -> string -> Mon;
  monitor_get : Mon -> string -> option (value * Mon);
  monitor_size : Mon -> string -> Z;
  monitor_stop : Mon -> Mon
}.

(** ** Bus manager and notification multiplexer ([btzen/bus.py]) *)

Definition INTERFACE_DEVICE : string := "org.bluez.Device1".
Definition INTERFACE_GATT_CHR : string := "org.bluez.GattCharacteristic1".

(** Calls into the native binding and on the connection lock, as an
    observer of the bus sees them. *)
Inductive call : Type :=
| bt_connect (path : string)
| bt_property_bool (path iface name : string)
| bt_property_str (path iface name : string)
| bt_property_monitor_start (path iface : string)
| lock_acquire (mac : string)
| lock_release (mac : string).

(** What the native binding answers. *)
Record world : Type := {
  connect_result : string -> outcome unit;
  property_bool : string -> string -> string -> bool;
  property_str : string -> string -> string -> string
}.

(** The state of a [Bus] object with its [Notifications], and the log
    of native calls made through it. *)
Record bus (Mon : Type) : Type := mkBus {
  _data : gmap (string * string) Mon;   (* [Notifications._data] *)
  _name : gmap string string;           (* cache of [_get_name] *)
  calls : list call
}.

Arguments mkBus {Mon} _ _ _.
Arguments _data {Mon} _.
Arguments _name {Mon} _.
Arguments calls {Mon} _.

Definition bus_init {Mon} : bus Mon :=
  {| _data := ∅; _name := ∅; calls := [] |}.

Definition log_call {Mon} (c : call) : M (bus Mon) unit :=
  modify (fun b => {| _data := _data b; _name := _name b;
                      calls := calls b ++ [c] |}).

Definition set_data {Mon} (key : string * string) (data : Mon)
  : M (bus Mon) unit :=
  modify (fun b => {| _data := <[key := data]> (_data b);
                      _name := _name b; calls := calls b |}).

Definition set_name {Mon} (mac name : string) : M (bus Mon) unit :=
  modify (fun b => {| _data := _data b;
                      _name := <[mac := name]> (_name b); calls := calls b |}).

(** ** [Notifications] *)

Module Notifications.
Section WithMonitor.
Context {Mon : Type} `{PropertyMonitor Mon}.

Definition start (path iface name : string) : M (bus Mon) unit :=
  let key := (path, iface) in
  found ← gets (fun b => _data b !! key);
  data ← match found with
         | None =>
             _ ← log_call (bt_property_monitor_start path iface);
             let data := monitor_start path iface in
             _ ← set_data key data;
             mret data
         | Some data => mret data
         end;
  present ← gets (fun b => bool_decide (is_Some (_data b !! key)));
  if present : bool then
    if monitor_is_registered data name then mret tt
    else set_data key (monitor_register data name)
  else raise AssertionError.

Definition get (path iface name : string) : M (bus Mon) value :=
  let key := (path, iface) in
  found ← gets (fun b => _data b !! key);
  match found with
  | None => raise KeyError
  | Some data =>
      match monitor_get data name with
      | Some (v, data') => _ ← set_data key data'; mret v
      | None => suspend
      end
  end.

Definition size (path iface name : string) : M (bus Mon) Z :=
  let key := (path, iface) in
  found ← gets (fun b => _data b !! key);
  match found with
  | None => raise KeyError
  | Some data => mret (monitor_size data name)
  end.

Definition stop (path iface : string) : M (bus Mon) unit :=
  let key := (path, iface) in
  found ← gets (fun b => _data b !! key);
  match found with
  | None => raise KeyError
  | Some data => set_data key (monitor_stop data)
  end.

(** A history of calls on the multiplexer. *)
Inductive op : Type :=
| Start (path iface name : string)
| Get (path iface name : string)
| Size (path iface name : string)
| Stop (path iface : string).

Definition run_op (o : op) (b : bus Mon) : bus Mon :=
  match o with
  | Start path iface name => (start path iface name b).2
  | Get path iface name => (get path iface name b).2
  | Size path iface name => (size path iface name b).2
  | Stop path iface => (stop path iface b).2
  end.

Definition run (ops : list op) (b : bus Mon) : bus Mon :=
  foldl (fun b o => run_op o b) b ops.

Definition starts (key : string * string) (o : op) : bool :=
  match o with
  | Start path iface _ => bool_decide ((path, iface) = key)
  | _ => false
  end.

(** The properties registered on a channel as the spec counts them:
    those started since the channel was last stopped. *)
Fixpoint registered (key : string * string) (ops : list op)
    (acc : list string) : list string :=
  match ops with
  | [] => acc
  | Start path iface name :: ops' =>
      registered key ops'
        (if bool_decide ((path, iface) = key) then name :: acc else acc)
  | Stop path iface :: ops' =>
      registered key ops'
        (if bool_decide ((path, iface) = key) then [] else acc)
  | _ :: ops' => registered key ops' acc
  end.

End WithMonitor.
End Notifications.

(** ** [Bus] *)

Module Bus.
Section WithMonitor.
Context {Mon : Type} `{PropertyMonitor Mon}.
Variable env : world.

Definition upper (c : ascii) : ascii :=
  let n := nat_of_ascii c in
  if (97 <=? n)%nat && (n <=? 122)%nat then ascii_of_nat (n - 32) else c.

Fixpoint string_map (f : ascii -> ascii) (s : string) : string :=
  match s with
  | EmptyString => EmptyString
  | String c s' => String (f c) (string_map f s')
  end.

(** [mac.replace(':', '_').upper()] *)
Definition _mac (mac : string) : string :=
  string_map upper
    (string_map (fun c => if Ascii.eqb c ":"%char then "_"%char else c) mac).

Definition _device_path (mac : string) : string :=
  "/org/bluez/hci0/dev_" +:+ _mac mac.

Definition _property_bool (path name : string) : M (bus Mon) bool :=
  _ ← log_call (bt_property_bool path INTERFACE_DEVICE name);
  mret (property_bool env path INTERFACE_DEVICE name).

Definition _dev_property_start (path name : string) : M (bus Mon) unit :=
  Notifications.start path INTERFACE_DEVICE name.

Definition _dev_property_get (path name : string) : M (bus Mon) value :=
  Notifications.get path INTERFACE_DEVICE name.

Definition _dev_property_stop (path name : string) : M (bus Mon) unit :=
  Notifications.stop path INTERFACE_DEVICE.

Definition _dev_property (path name : string) : M (bus Mon) value :=
  _ ← _dev_property_start path name;
  try_finally (_dev_property_get path name) (_dev_property_stop path name).

(** [await task] on the native connect request. *)
Definition completion (path : string) : M (bus Mon) unit :=
  fun b => (connect_result env path, b).

Definition await_bt_connect (path : string) : M (bus Mon) unit :=
  _ ← log_call (bt_connect path);
  completion path.

Definition _connect (path : string) : M (bus Mon) unit :=
  try_except_else
    (await_bt_connect path)
    (fun ex =>
       connected ← _property_bool path "Connected";
       if connected : bool then mret tt else raise ex)
    (fun _ =>
       connected ← _property_bool path "Connected";
       mret tt).

Definition _connect_and_resolve (path : string) : M (bus Mon) unit :=
  _ ← _connect path;
  (* first create task *)
  let task_sr := _dev_property path "ServicesResolved" in
  (* then check the property *)
  resolved ← _property_bool path "ServicesResolved";
  try_finally
    (if resolved : bool then mret tt
     else (* and wait for services to be resolved *)
       value ← task_sr; mret tt)
    (close task_sr).

Definition _get_name (mac : string) : M (bus Mon) string :=
  cached ← gets (fun b => _name b !! mac);
  match cached with
  | Some name => mret name
  | None =>
      let path := _device_path mac in
      _ ← log_call (bt_property_str path INTERFACE_DEVICE "Name");
      let name := property_str env path INTERFACE_DEVICE "Name" in
      _ ← set_name mac name;
      mret name
  end.

(** [connect], for a caller that finds the connection lock free. *)
Definition connect (mac : string) : M (bus Mon) string :=
  let path := _device_path mac in
  _ ← log_call (lock_acquire mac);
  _ ← try_finally (_connect_and_resolve path) (log_call (lock_release mac));
  _get_name mac.

End WithMonitor.
End Bus.

(** ** Connection manager ([btzen/cm.py]) *)

Module ConnectionManager.

(** A logical device object: its identity and its address. *)
Record device : Type := { ident : nat; mac : string }.

(** [_connected] holds the flag of the [asyncio.Event] of each
    address. *)
Record t : Type := mk {
  _devices : gmap string (gset nat);
  _connected : gmap string bool;
  _process : bool;
  enable_timeout : Z
}.

Definition init : t :=
  {| _devices := ∅; _connected := ∅; _process := false;
     enable_timeout := 30 |}.

(** [self._devices[dev.mac].add(dev)] on a [defaultdict(set)]. *)
Definition add_device (devs : gmap string (gset nat)) (dev : device)
  : gmap string (gset nat) :=
  <[mac dev := default ∅ (devs !! mac dev) ∪ {[ident dev]}]> devs.

(** [add]: every address of [_devices] gets a fresh, unset event. *)
Definition add (devices : list device) (cm : t) : t :=
  let devs := foldl add_device (_devices cm) devices in
  {| _devices := devs;
     _connected := ((fun _ => false) <$> devs) ∪ _connected cm;
     _process := _process cm;
     enable_timeout := enable_timeout cm |}.

(** What a caller of [connected] waits on. *)
Inductive wait : Type := EventWait (address : string).

Definition connected (address : string) (cm : t) : outcome unit * list wait :=
  match _connected cm !! address with
  | None => (Raised ValueError, [])
  | Some true => (Returned tt, [EventWait address])
  | Some false => (Suspended, [EventWait address])
  end.

(** *** The enable/wait loop of one address

    The task running [_restart] is followed from one suspension to
    the next.  It is suspended either in [_enable], on the [gather]
    of the [dev.enable()] calls, or in [_restart], on the next
    [ServicesResolved] notification. *)

Inductive gather_result : Type :=
| Enabled                 (* every [dev.enable()] returned in time *)
| Failed (e : exn).       (* [gather] raised [e] *)

Inductive input : Type :=
| GatherDone (r : gather_result)
| Notified (resolved : bool)    (* a [ServicesResolved] change arrives *)
| CloseCalled.                  (* [close()] clears [_process] *)

Inductive action : Type :=
| EnableCall                    (* [await enable()] in [_restart] *)
| Attempt                       (* [await asyncio.gather(...)] in [_enable] *)
| TimeoutLogged                 (* [except asyncio.TimeoutError] *)
| CnSet
| CnClear
| AwaitResolved                 (* [await bus._dev_property_get(...)] *)
| GotResolved (resolved : bool).

Inductive pc : Type :=
| AtGather
| AtResolved
| Exited
| Crashed (e : exn).

Record task : Type := mkTask {
  cm : t;
  at_pc : pc;
  queue : list bool;     (* notifications delivered and not yet read *)
  acts : list action
}.

Definition emit (a : action) (s : task) : task :=
  {| cm := cm s; at_pc := at_pc s; queue := queue s; acts := acts s ++ [a] |}.

Definition goto (p : pc) (q : list bool) (s : task) : task :=
  {| cm := cm s; at_pc := p; queue := q; acts := acts s |}.

Definition set_event (address : string) (v : bool) (s : task) : task :=
  {| cm := {| _devices := _devices (cm s);
              _connected := <[address := v]> (_connected (cm s));
              _process := _process (cm s);
              enable_timeout := enable_timeout (cm s) |};
     at_pc := at_pc s; queue := queue s; acts := acts s |}.

Definition cn_set (address : string) (s : task) : task :=
  set_event address true (emit CnSet s).

Definition cn_clear (address : string) (s : task) : task :=
  set_event address false (emit CnClear s).

(** The head of the loop of [_enable]: a new attempt while the manager
    runs, otherwise [_enable] returns and [_restart] goes on with
    [returned]. *)
Definition _enable (q : list bool) (returned : task -> task) (s : task) : task :=
  if _process (cm s) then goto AtGather q (emit Attempt s)
  else returned s.

(** The head of the loop of [_restart]. *)
Definition loop_head (q : list bool) (returned : task -> task) (s : task)
  : task :=
  if _process (cm s) then _enable q returned (emit EnableCall s)
  else goto Exited q s.

(** [_restart] from its [await bus._dev_property_get(...)] on, with
    [q] the notifications already delivered. *)
Fixpoint wait_resolved (address : string) (q : list bool) (s : task) : task :=
  let s := emit AwaitResolved s in
  match q with
  | [] => goto AtResolved [] s
  | v :: q' =>
      loop_head q'
        (fun s' => wait_resolved address q' (cn_set address s'))
        (emit (GotResolved v) s)
  end.

(** [_restart(mac, devices)] up to its first suspension. *)
Definition _restart (address : string) (c : t) : task :=
  let s := {| cm := c; at_pc := Exited; queue := []; acts := [] |} in
  match _connected c !! address with
  | None => goto (Crashed KeyError) [] s
  | Some _ =>
      loop_head [] (fun s' => wait_resolved address [] (cn_set address s')) s
  end.

(** The task resumed by one input. *)
Definition step (address : string) (s : task) (i : input) : task :=
  match i, at_pc s with
  | CloseCalled, _ =>
      {| cm := {| _devices := _devices (cm s);
                  _connected := _connected (cm s);
                  _process := false;
                  enable_timeout := enable_timeout (cm s) |};
         at_pc := at_pc s; queue := queue s; acts := acts s |}
  | Notified v, AtResolved =>
      loop_head []
        (fun s' => wait_resolved address [] (cn_set address s'))
        (emit (GotResolved v) s)
  | Notified v, _ => goto (at_pc s) (queue s ++ [v]) s
  | GatherDone Enabled, AtGather =>
      (* [break], then the [else] clause of [_restart] *)
      wait_resolved address (queue s) (cn_set address s)
  | GatherDone (Failed TimeoutError), AtGather =>
      _enable (queue s)
        (fun s' => wait_resolved address (queue s) (cn_set address s'))
        (emit TimeoutLogged s)
  | GatherDone (Failed _), AtGather =>
      (* [except Exception] in [_restart] *)
      wait_resolved address (queue s) (cn_clear address s)
  | GatherDone _, _ => s
  end.

Definition run (address : string) (inputs : list input) (s : task) : task :=
  foldl (step address) s inputs.

Definition same_kind (x a : action) : bool :=
  match x, a with
  | EnableCall, EnableCall
  | Attempt, Attempt
  | TimeoutLogged, TimeoutLogged
  | CnSet, CnSet
  | CnClear, CnClear
  | AwaitResolved, AwaitResolved
  | GotResolved _, GotResolved _ => true
  | _, _ => false
  end.

(** How many actions of the kind of [a] a task has performed. *)
Fixpoint count (a : action) (l : list action) : nat :=
  match l with
  | [] => 0
  | x :: l' => (if same_kind x a then 1 else 0) + count a l'
  end.

(** Calls of [enable()] against notifications read, and attempts
    against calls and timeouts. *)
Definition counted (s : task) : Prop :=
  let E := count EnableCall (acts s) in
  let G := count (GotResolved true) (acts s) in
  let A := count Attempt (acts s) in
  let T := count TimeoutLogged (acts s) in
  match at_pc s with
  | AtGather | AtResolved => E = S G
  | Exited => E = G
  | Crashed _ => E = 0%nat /\ G = 0%nat
  end /\ (E <= A)%nat /\ (A <= E + T)%nat.

(** Sample manager: one sensor at the sample address, started. *)
Definition sample : t :=
  let c := add [ {| ident := 1; mac := "aa:bb:cc:dd:ee:ff" |} ] init in
  {| _devices := _devices c; _connected := _connected c;
     _process := true; enable_timeout := enable_timeout c |}.

End ConnectionManager.

(** The state [b] with [new] appended to the log of native calls. *)
Definition logged {Mon} (new : list call) (b : bus Mon) : bus Mon :=
  {| _data := _data b; _name := _name b; calls := calls b ++ new |}.

(** The native calls of the resolution step of [_connect_and_resolve]:
    the read of [ServicesResolved], followed by the start of a monitor
    when the read was false and the channel had no entry. *)
Definition resolve_calls {Mon} (env : world) (path : string) (b : bus Mon)
  : list call :=
  bt_property_bool path INTERFACE_DEVICE "ServicesResolved" ::
  if property_bool env path INTERFACE_DEVICE "ServicesResolved" then []
  else match _data b !! (path, INTERFACE_DEVICE) with
       | None => [bt_property_monitor_start path INTERFACE_DEVICE]
       | Some _ => []
       end.

(** ** A queue-backed monitor, to run the model on examples *)

(** Modelled from the spec: the subscription object of the native
    binding's property monitor (operations [isRegistered], [register],
    [await nextValue], [pendingCount], [stop]); it is native code.  The
    values the bus will deliver on a channel are given by [feed]. *)
Record queue_monitor : Type := {
  names : list string;
  pending : list (string * value);
  stopped : bool
}.

Fixpoint take_first (name : string) (q : list (string * value))
  : option (value * list (string * value)) :=
  match q with
  | [] => None
  | (k, v) :: q' =>
      if String.eqb k name then Some (v, q')
      else match take_first name q' with
           | Some (w, r) => Some (w, (k, v) :: r)
           | None => None
           end
  end.

Definition scripted (feed : string -> string -> list (string * value))
  : PropertyMonitor queue_monitor := {|
  monitor_start path iface :=
    {| names := []; pending := feed path iface; stopped := false |};
  monitor_is_registered m name := existsb (String.eqb name) (names m);
  monitor_register m name :=
    {| names := name :: names m; pending := pending m; stopped := stopped m |};
  monitor_get m name :=
    match take_first name (pending m) with
    | Some (v, q) =>
        Some (v, {| names := names m; pending := q; stopped := stopped m |})
    | None => None
    end;
  monitor_size m name :=
    Z.of_nat (length (filter (fun kv => String.eqb kv.1 name = true) (pending m)));
  monitor_stop m := {| names := []; pending := []; stopped := true |}
|}.

(** A bus on which nothing is ever notified. *)
Definition silent : PropertyMonitor queue_monitor := scripted (fun _ _ => []).

(** Sample device and worlds. *)
Definition sample_mac : string := "aa:bb:cc:dd:ee:ff".
Definition sample_path : string := "/org/bluez/hci0/dev_AA_BB_CC_DD_EE_FF".

(** The device resolves its services some time after the connect: the
    bus will notify [ServicesResolved = True] on the device channel. *)
Definition resolving : PropertyMonitor queue_monitor :=
  scripted (fun path iface =>
    if String.eqb path sample_path && String.eqb iface INTERFACE_DEVICE
    then [("ServicesResolved"%string, VBool true)] else []).

(** The connect request completes; services are not resolved yet. *)
Definition world_fresh : world := {|
  connect_result _ := Returned tt;
  property_bool _ _ name := String.eqb name "Connected";
  property_str _ _ _ := "SensorTag"%string
|}.

(** The connect request fails with [ex]; the device reads as connected
    or not, its services as resolved. *)
Definition world_failing (ex : exn) (is_connected : bool) : world := {|
  connect_result _ := Raised ex;
  property_bool _ _ name :=
    if String.eqb name "Connected" then is_connected else true;
  property_str _ _ _ := "SensorTag"%string
|}.

(** The spec's "already connected"-class of connect failures: the bus
    daemon's [AlreadyConnected] and [AlreadyExists] errors. *)
Definition already_connected_class (ex : exn) : bool :=
  match ex with
  | NativeError msg | ConnectionError msg =>
      String.eqb msg "Already Connected" || String.eqb msg "Already Exists"
  | _ => false
  end.

(** The ceiling of [a / 20] as the spec writes it: the least integer [k]
    with [a <= 20 * k]. *)
Definition ceil_div20 (a : Z) : Z := (a + 19) / 20.

(* ================================================================== *)
(** * Further definitions *)

(** A trace entry of a serial session that is not a write to the bus. *)
Definition silent_event (e : Serial.event) : Prop :=
  match e with Serial.BtWrite _ _ => False | _ => True end.

(** The characters of a string, and the character classes that matter
    for an address: [str.upper] is the one of ASCII on code points below
    128. *)
Fixpoint chars (s : string) : list ascii :=
  match s with
  | EmptyString => []
  | String c s' => c :: chars s'
  end.

Definition is_ascii (c : ascii) : Prop := (nat_of_ascii c < 128)%nat.

Definition lowercase (c : ascii) : Prop :=
  (97 <= nat_of_ascii c <= 122)%nat.

(** A call made to the native binding, as opposed to one on the
    connection lock. *)
Definition is_native (c : call) : Prop :=
  match c with
  | lock_acquire _ | lock_release _ => False
  | _ => True
  end.

(** ** The characteristic-level wrappers of [Bus]

    [_gatt_start] and [_gatt_stop] also switch the value notifications
    of the characteristic on and off in the native binding; these calls
    are logged beside the state of the bus. *)

Module Gatt.
Section WithMonitor.
Context {Mon : Type} `{PropertyMonitor Mon}.

Inductive notify_call : Type :=
| bt_notify_start (path : string)
| bt_notify_stop (path : string).

Record t : Type := mk {
  bus_of : bus Mon;
  notify_calls : list notify_call
}.

Definition init : t := {| bus_of := bus_init; notify_calls := [] |}.

(** A method of [Notifications] run on the bus of the state. *)
Definition on_bus {A} (m : M (bus Mon) A) : M t A :=
  fun g =>
    let (o, b) := m (bus_of g) in
    (o, {| bus_of := b; notify_calls := notify_calls g |}).

Definition log_notify (c : notify_call) : M t unit :=
  modify (fun g => {| bus_of := bus_of g;
                      notify_calls := notify_calls g ++ [c] |}).

Definition _gatt_start (path : string) : M t unit :=
  _ ← on_bus (Notifications.start path INTERFACE_GATT_CHR "Value");
  log_notify (bt_notify_start path).

Definition _gatt_get (path : string) : M t value :=
  on_bus (Notifications.get path INTERFACE_GATT_CHR "Value").

Definition _gatt_stop (path : string) : M t unit :=
  _ ← log_notify (bt_notify_stop path);
  on_bus (Notifications.stop path INTERFACE_GATT_CHR).

Definition _gatt_size (path : string) : M t Z :=
  on_bus (Notifications.size path INTERFACE_GATT_CHR "Value").

End WithMonitor.

Arguments t Mon : clear implicits.

End Gatt.

(* ================================================================== *)
(** * Properties *)


Section SerialFacts.
Import Serial.

Lemma ceil_div20_spec a k : ceil_div20 a <= k <-> a <= 20 * k.
Proof.
  unfold ceil_div20.
  pose proof (Z.div_mod (a + 19) 20 ltac:(lia)) as Hdm.
  pose proof (Z.mod_pos_bound (a + 19) 20 ltac:(lia)) as Hb.
  lia.
Qed.

Lemma granted_app a b : granted (a ++ b) = granted a + granted b.
Proof. unfold granted. induction a as [|e a IH]; simpl; lia. Qed.

Lemma frames_received_app a b :
  frames_received (a ++ b) = frames_received a + frames_received b.
Proof.
  unfold frames_received.
  induction a as [|e a IH]; simpl; [lia | destruct e; lia].
Qed.

Lemma granted_nonneg a : 0 <= granted a.
Proof.
  unfold granted. induction a as [|e a IH]; simpl; [lia|].
  assert (0 <= grant_of e); [|lia].
  destruct e as [c data| | |]; simpl; try lia.
  destruct c; try lia. destruct data as [|b [|? ?]]; lia.
Qed.


(** The quotient's ceiling, computed. *)
Lemma Qceiling_div20 (x : Z) :
  Qceiling (inject_Z x / inject_Z 20) = ceil_div20 x.
Proof.
  unfold Qceiling, Qfloor, ceil_div20, Qdiv, Qmult, Qinv, Qopp, inject_Z.
  cbn [Qnum Qden].
  replace (Z.pos (1 * 20)) with 20 by reflexivity.
  pose proof (Z.div_mod (- (x * 1)) 20 ltac:(lia)) as H1.
  pose proof (Z.mod_pos_bound (- (x * 1)) 20 ltac:(lia)) as H2.
  pose proof (Z.div_mod (x + 19) 20 ltac:(lia)) as H3.
  pose proof (Z.mod_pos_bound (x + 19) 20 ltac:(lia)) as H4.
  lia.
Qed.

(** The ceiling is stable under rounding of the quotient: a value within
    1/20 of [x / 20] has the same ceiling when 20 does not divide [x]
    (when it does, the quotient is an integer). *)
Lemma Qceiling_unique (q : Q) (m : Z) :
  (inject_Z (m - 1) < q)%Q -> (q <= inject_Z m)%Q -> Qceiling q = m.
Proof.
  intros Hlo Hhi.
  pose proof (Qle_ceiling q) as H1. pose proof (Qceiling_lt q) as H2.
  assert (inject_Z (m - 1) < inject_Z (Qceiling q))%Q as A
    by (eapply Qlt_le_trans; eauto).
  assert (inject_Z (Qceiling q - 1) < inject_Z m)%Q as B
    by (eapply Qlt_le_trans; eauto).
  rewrite <- Zlt_Qlt in A, B. lia.
Qed.

Lemma ceiling_stable (x : Z) (q : Q) :
  x mod 20 <> 0 ->
  (Qabs (q - inject_Z x / inject_Z 20) < 1 # 20)%Q ->
  Qceiling q = ceil_div20 x.
Proof.
  intros Hr Habs.
  apply Qabs_Qlt_condition in Habs. destruct Habs as [Hlo Hhi].
  pose proof (Z.div_mod x 20 ltac:(lia)) as Hdm.
  pose proof (Z.mod_pos_bound x 20 ltac:(lia)) as Hb.
  assert (ceil_div20 x = x / 20 + 1) as ->.
  { unfold ceil_div20.
    pose proof (Z.div_mod (x + 19) 20 ltac:(lia)).
    pose proof (Z.mod_pos_bound (x + 19) 20 ltac:(lia)). lia. }
  set (k := x / 20) in *. set (r := x mod 20) in *.
  assert (inject_Z x / inject_Z 20 == inject_Z k + inject_Z r * (1 # 20))%Q as Hx.
  { rewrite Hdm. rewrite inject_Z_plus, inject_Z_mult. field. }
  assert (inject_Z 1 <= inject_Z r)%Q as Hr1 by (rewrite <- Zle_Qle; lia).
  assert (inject_Z r <= inject_Z 19)%Q as Hr2 by (rewrite <- Zle_Qle; lia).
  apply Qceiling_unique.
  - replace (k + 1 - 1) with k by lia. rewrite Hx in Hlo.
    change (inject_Z 1) with 1%Q in Hr1. lra.
  - rewrite inject_Z_plus. rewrite Hx in Hhi.
    change (inject_Z 19) with 19%Q in Hr2.
    change (inject_Z 1) with 1%Q. lra.
Qed.

Lemma credits_for_eq data n :
  credits_for data n = Z.min 255 (ceil_div20 (n - len data)).
Proof. unfold credits_for. now rewrite Qceiling_div20. Qed.

(** Inside the loop of [read] a grant is a valid byte and at least 1. *)
Lemma credits_for_range data n :
  len data < n -> 1 <= credits_for data n <= 255.
Proof.
  intros Hlt. rewrite credits_for_eq.
  assert (1 <= ceil_div20 (n - len data)).
  { destruct (Z_lt_le_dec (ceil_div20 (n - len data)) 1) as [Hc|Hc]; [|lia].
    assert (ceil_div20 (n - len data) <= 0) as Hle by lia.
    apply ceil_div20_spec in Hle. lia. }
  lia.
Qed.

Lemma bytes1_Some c :
  0 <= c < 256 -> exists b, bytes1 c = Some [b] /\ Z.of_N (Byte.to_N b) = c.
Proof.
  intros Hc. unfold bytes1.
  replace ((0 <=? c) && (c <? 256)) with true
    by (symmetry; apply andb_true_iff; split; [apply Z.leb_le | apply Z.ltb_lt]; lia).
  pose proof (Byte.to_of_N_option_map (Z.to_N c)) as Hm.
  replace (Z.to_N c <=? 255)%N with true in Hm
    by (symmetry; apply N.leb_le; lia).
  destruct (Byte.of_N (Z.to_N c)) as [b|] eqn:Hb; [|discriminate].
  exists b. split; [reflexivity|].
  simpl in Hm. injection Hm as ->. lia.
Qed.

(** A grant that fits a byte is written, then added to the ledger. *)
Lemma add_rx_credits_ok n s :
  0 <= n < 256 ->
  exists b, Z.of_N (Byte.to_N b) = n /\
    _add_rx_credits n s =
      (Returned tt,
       {| _rx_credits := _rx_credits s + n;
          trace := trace s ++ [BtWrite UUID_RX_CREDIT [b];
                               Ledger (_rx_credits s + n)] |}).
Proof.
  intros Hn. destruct (bytes1_Some n Hn) as (b & Hb & Hv).
  exists b. split; [exact Hv|].
  unfold _add_rx_credits. rewrite Hb.
  unfold set_rx_credits, _write, log; simpl.
  now rewrite <- app_assoc.
Qed.

(** Entering the context manager inside the loop: it returns, the
    ledger is at least 1 afterwards when it was not negative before,
    and whatever it appended is a grant. *)
Lemma rx_credits_mgr_enter_spec data n s :
  len data < n ->
  exists s1 new,
    _rx_credits_mgr_enter data n s = (Returned tt, s1) /\
    trace s1 = trace s ++ new /\
    _rx_credits s1 = _rx_credits s + granted new /\
    frames_received new = 0 /\
    (0 <= _rx_credits s -> Forall ledger_ok new /\ 1 <= _rx_credits s1).
Proof.
  intros Hlt. unfold _rx_credits_mgr_enter.
  destruct (_rx_credits s <? 1) eqn:Hc.
  - pose proof (credits_for_range data n Hlt) as Hr.
    destruct (add_rx_credits_ok (credits_for data n) s ltac:(lia))
      as (b & Hb & ->).
    eexists _, _. split; [reflexivity|]. simpl.
    split; [reflexivity|]. unfold granted; simpl. rewrite Hb.
    split; [lia|]. split; [reflexivity|].
    intros Hs. split; [|lia].
    repeat constructor; simpl; lia.
  - apply Z.ltb_ge in Hc.
    exists s, []. rewrite app_nil_r. simpl.
    repeat split; auto; lia.
Qed.

(** With a ledger below 1 the context manager first writes a grant of
    [credits_for data n] and adds it to the ledger; otherwise it does
    nothing. *)
Lemma rx_credits_mgr_enter_grant data n s :
  len data < n ->
  if _rx_credits s <? 1 then
    exists b, Z.of_N (Byte.to_N b) = credits_for data n /\
      _rx_credits_mgr_enter data n s =
        (Returned tt,
         {| _rx_credits := _rx_credits s + credits_for data n;
            trace := trace s ++
                     [BtWrite UUID_RX_CREDIT [b];
                      Ledger (_rx_credits s + credits_for data n)] |})
  else _rx_credits_mgr_enter data n s = (Returned tt, s).
Proof.
  intros Hlt. unfold _rx_credits_mgr_enter.
  destruct (_rx_credits s <? 1); [|reflexivity].
  pose proof (credits_for_range data n Hlt) as Hr.
  apply add_rx_credits_ok. lia.
Qed.

Lemma read_loop_eq n tx data s :
  read_loop n tx data s =
  if len data <? n then
    match _rx_credits_mgr_enter data n s with
    | (Returned _, s1) =>
        let s2 := log (AwaitFrame (_rx_credits s1)) s1 in
        match tx with
        | [] => (Suspended, s2, [])
        | item :: tx' =>
            read_loop n tx' (data ++ item)
              (_rx_credits_mgr_exit (log (GotFrame item) s2))
        end
    | (Raised e, s1) => (Raised e, s1, tx)
    | (Suspended, s1) => (Suspended, s1, tx)
    end
  else if len data =? n then (Returned data, s, tx)
  else (Raised AssertionError, s, tx).
Proof. destruct tx; reflexivity. Qed.

Lemma len_app {A} (a b : list A) : len (a ++ b) = len a + len b.
Proof. unfold len. rewrite length_app. lia. Qed.

Lemma len_nonneg {A} (a : list A) : 0 <= len a.
Proof. unfold len. lia. Qed.





(** [connect] establishes the ledger invariant, [write] keeps it. *)
Lemma connect_wf bc txc s s' rest :
  connect bc txc s = (Returned tt, s', rest) ->
  wf s' /\ _rx_credits s' = 32.
Proof.
  unfold connect. destruct bc as [name| |]; try discriminate.
  destruct (add_rx_credits_ok 32 {| _rx_credits := 0; trace := trace s |}
              ltac:(lia)) as (b & Hb & ->).
  destruct txc; [discriminate|]. intros [= <- <-].
  pose proof (granted_nonneg (trace s)) as Hg.
  unfold wf; simpl. rewrite granted_app. unfold granted at 2; simpl.
  rewrite Hb. split; lia.
Qed.

Lemma write_wf data txc s o s' rest :
  write data txc s = (o, s', rest) -> wf s -> wf s'.
Proof.
  unfold write, wf. destruct (len data <=? 20); [|intros [= <- <- <-]; auto].
  destruct (_rx_credits s <? 1) eqn:Hc.
  - destruct (add_rx_credits_ok 32 s ltac:(lia)) as (b & Hb & ->).
    intros [= <- <- <-] Hwf. unfold _write; simpl.
    rewrite !granted_app. unfold granted at 2 3; simpl. rewrite Hb. lia.
  - intros [= <- <- <-] Hwf. unfold _write; simpl.
    rewrite granted_app. unfold granted at 2; simpl. lia.
Qed.








End SerialFacts.

(** Unfolding of the coroutine combinators. *)
Ltac run_m :=
  unfold set_data, log_call, set_name, gets, modify, raise, suspend,
    try_finally, try_except_else, close,
    mbind, M_bind, mret, M_ret in *;
  simpl in *.

Section NotificationsFacts.
Context {Mon : Type} `{PropertyMonitor Mon}.
Import Notifications.

Implicit Types (b : bus Mon) (key : string * string).

Lemma stop_eq path iface b :
  stop path iface b =
  match _data b !! (path, iface) with
  | None => (Raised KeyError, b)
  | Some data =>
      (Returned tt,
       {| _data := <[(path, iface) := monitor_stop data]> (_data b);
          _name := _name b; calls := calls b |})
  end.
Proof. unfold stop. run_m. destruct (_data b !! (path, iface)); reflexivity. Qed.

Lemma get_eq path iface name b :
  get path iface name b =
  match _data b !! (path, iface) with
  | None => (Raised KeyError, b)
  | Some data =>
      match monitor_get data name with
      | Some (v, data') =>
          (Returned v,
           {| _data := <[(path, iface) := data']> (_data b);
              _name := _name b; calls := calls b |})
      | None => (Suspended, b)
      end
  end.
Proof.
  unfold get. run_m. destruct (_data b !! (path, iface)) as [data|]; [|reflexivity].
  destruct (monitor_get data name) as [[v data']|]; reflexivity.
Qed.

Lemma size_eq path iface name b :
  size path iface name b =
  match _data b !! (path, iface) with
  | None => (Raised KeyError, b)
  | Some data => (Returned (monitor_size data name), b)
  end.
Proof. unfold size. run_m. destruct (_data b !! (path, iface)); reflexivity. Qed.

(** [start] returns (its assertion holds), leaves an entry for its
    channel and touches no other entry. *)
Lemma start_spec path iface name b :
  exists b',
    start path iface name b = (Returned tt, b') /\
    is_Some (_data b' !! (path, iface)) /\
    (forall key, key <> (path, iface) -> _data b' !! key = _data b !! key) /\
    _name b' = _name b /\
    calls b' = calls b ++
      match _data b !! (path, iface) with
      | None => [bt_property_monitor_start path iface]
      | Some _ => []
      end.
Proof.
  unfold start. run_m.
  destruct (_data b !! (path, iface)) as [data|] eqn:Hk; simpl.
  - rewrite Hk. rewrite bool_decide_true by eauto.
    destruct (monitor_is_registered data name); eexists; (split; [reflexivity|]);
      simpl; rewrite ?app_nil_r, ?lookup_insert_eq;
      (split; [eauto|]); (split; [|auto]); intros key Hne;
      rewrite ?lookup_insert_ne by congruence; reflexivity.
  - rewrite lookup_insert_eq. rewrite bool_decide_true by eauto.
    destruct (monitor_is_registered (monitor_start path iface) name);
      eexists; (split; [reflexivity|]);
      simpl; rewrite ?lookup_insert_eq;
      (split; [eauto|]); (split; [|auto]); intros key Hne;
      rewrite ?lookup_insert_ne by congruence; reflexivity.
Qed.

(** No call on the multiplexer removes an entry from the table. *)
Lemma run_op_keeps o b key :
  is_Some (_data b !! key) -> is_Some (_data (run_op o b) !! key).
Proof.
  intros Hk. destruct o as [path iface name|path iface name|path iface name|path iface];
    simpl.
  - destruct (start_spec path iface name b) as (b' & -> & Hs & Hother & _).
    simpl. destruct (decide (key = (path, iface))) as [->|Hne]; [exact Hs|].
    now rewrite Hother.
  - rewrite get_eq. destruct (_data b !! (path, iface)) as [data|]; [|exact Hk].
    destruct (monitor_get data name) as [[v data']|]; [|exact Hk]. simpl.
    destruct (decide (key = (path, iface))) as [->|Hne];
      [rewrite lookup_insert_eq; eauto | now rewrite lookup_insert_ne].
  - rewrite size_eq. destruct (_data b !! (path, iface)); exact Hk.
  - rewrite stop_eq. destruct (_data b !! (path, iface)) as [data|]; [|exact Hk].
    simpl. destruct (decide (key = (path, iface))) as [->|Hne];
      [rewrite lookup_insert_eq; eauto | now rewrite lookup_insert_ne].
Qed.

(** Only [start] on a channel creates its entry. *)
Lemma run_op_absent o b key :
  starts key o = false ->
  _data b !! key = None -> _data (run_op o b) !! key = None.
Proof.
  intros Hst Hk. destruct o as [path iface name|path iface name|path iface name|path iface];
    simpl in *.
  - apply bool_decide_eq_false in Hst.
    destruct (start_spec path iface name b) as (b' & -> & _ & Hother & _).
    simpl. rewrite Hother by congruence. exact Hk.
  - rewrite get_eq. destruct (_data b !! (path, iface)) as [data|] eqn:Hd; [|exact Hk].
    destruct (monitor_get data name) as [[v data']|]; [|exact Hk]. simpl.
    rewrite lookup_insert_ne by congruence. exact Hk.
  - rewrite size_eq. destruct (_data b !! (path, iface)); exact Hk.
  - rewrite stop_eq. destruct (_data b !! (path, iface)) as [data|] eqn:Hd; [|exact Hk].
    simpl. rewrite lookup_insert_ne by congruence. exact Hk.
Qed.

Lemma run_absent ops : forall b key,
  Forall (fun o => starts key o = false) ops ->
  _data b !! key = None -> _data (run ops b) !! key = None.
Proof.
  induction ops as [|o ops IH]; intros b key Hall Hk; [exact Hk|].
  inversion Hall as [|? ? Ho Hrest]; subst. simpl.
  apply IH; [exact Hrest|]. now apply run_op_absent.
Qed.

(** C8, what the code does: after [start(path, iface, name)] followed
    by [stop(path, iface)] no property is registered on the channel,
    yet its entry is still in the table: [stop] stops the monitor and
    leaves the entry where it is. *)
Theorem stop_keeps_channel_entry path iface name b :
  let ops := [Start path iface name; Stop path iface] in
  registered (path, iface) ops [] = [] /\
  is_Some (_data (run ops b) !! (path, iface)) /\
  (stop path iface (run [Start path iface name] b)).1 = Returned tt.
Proof.
  simpl. rewrite !bool_decide_true by reflexivity.
  split; [reflexivity|].
  destruct (start_spec path iface name b) as (b' & Hrun & [data Hs] & _).
  rewrite Hrun; simpl. rewrite stop_eq, Hs; simpl.
  rewrite lookup_insert_eq. eauto.
Qed.

(** Two calls of [stop] in a row on a channel with an entry: both
    return, the keys of the table stay as they are. *)
Lemma stop_again path iface b :
  is_Some (_data b !! (path, iface)) ->
  exists b1 b2,
    stop path iface b = (Returned tt, b1) /\
    stop path iface b1 = (Returned tt, b2) /\
    dom (_data b1) = dom (_data b) /\
    dom (_data b2) = dom (_data b).
Proof.
  intros [data Hd]. rewrite stop_eq, Hd.
  eexists _, _. split; [reflexivity|]. rewrite stop_eq. simpl.
  rewrite lookup_insert_eq. split; [reflexivity|]. simpl.
  rewrite insert_insert_eq.
  rewrite !(dom_insert_lookup_L (_data b)) by eauto.
  split; reflexivity.
Qed.

(** C9, as the code has it: on a channel that has an entry in the table
    [stop] returns, having stopped the monitor of the channel and made
    no native call; on a channel without an entry, such as one that was
    never started, [stop] raises [KeyError] and changes nothing. *)
Theorem stop_needs_entry path iface b :
  (forall data,
      _data b !! (path, iface) = Some data ->
      stop path iface b =
        (Returned tt,
         {| _data := <[(path, iface) := monitor_stop data]> (_data b);
            _name := _name b; calls := calls b |})) /\
  (_data b !! (path, iface) = None ->
   stop path iface b = (Raised KeyError, b)).
Proof.
  split.
  - intros data Hd. now rewrite stop_eq, Hd.
  - intros Hd. now rewrite stop_eq, Hd.
Qed.

(** C10: on a channel on which [start] was never called, [get] and
    [size] raise [KeyError] at once: they neither suspend nor return a
    value, and they leave the table as it was. *)
Theorem get_size_never_started ops path iface name :
  Forall (fun o => starts (path, iface) o = false) ops ->
  let b := run ops bus_init in
  get path iface name b = (Raised KeyError, b) /\
  size path iface name b = (Raised KeyError, b).
Proof.
  intros Hall b.
  assert (_data b !! (path, iface) = None) as Hk
    by (apply run_absent; [exact Hall | apply lookup_empty]).
  rewrite get_eq, size_eq, Hk. split; reflexivity.
Qed.

End NotificationsFacts.

Lemma stop_needs_entry_witness :
  let b := @Notifications.run _ silent
             [Notifications.Start sample_path INTERFACE_DEVICE "ServicesResolved"]
             bus_init in
  (@Notifications.stop _ silent sample_path INTERFACE_DEVICE b).1 = Returned tt /\
  @Notifications.stop _ silent sample_path INTERFACE_GATT_CHR b
    = (Raised KeyError, b).
Proof.
  intros b. split.
  - assert (_data b !! (sample_path, INTERFACE_DEVICE) =
            Some {| names := ["ServicesResolved"%string]; pending := [];
                    stopped := false |}) as Hd
      by (vm_compute; reflexivity).
    rewrite (proj1 (@stop_needs_entry _ silent sample_path INTERFACE_DEVICE b)
               _ Hd).
    reflexivity.
  - apply (proj2 (@stop_needs_entry _ silent sample_path INTERFACE_GATT_CHR b)).
    vm_compute. reflexivity.
Defined.

(** C9 as stated fails: [stop] on a channel that was never started (so
    with no property registered) raises [KeyError]. *)
Lemma stop_never_started_counterexample :
  @Notifications.stop _ silent sample_path INTERFACE_GATT_CHR bus_init
    = (Raised KeyError, bus_init).
Proof. reflexivity. Qed.

Lemma get_size_never_started_witness :
  let ops := [Notifications.Start sample_path INTERFACE_DEVICE "ServicesResolved";
              Notifications.Stop sample_path INTERFACE_DEVICE;
              Notifications.Get sample_path INTERFACE_GATT_CHR "Value"] in
  let b := @Notifications.run _ silent ops bus_init in
  @Notifications.get _ silent sample_path INTERFACE_GATT_CHR "Value" b
    = (Raised KeyError, b) /\
  @Notifications.size _ silent sample_path INTERFACE_GATT_CHR "Value" b
    = (Raised KeyError, b).
Proof.
  apply (@get_size_never_started _ silent).
  repeat constructor.
Defined.

Section BusFacts.
Context {Mon : Type} `{PropertyMonitor Mon}.
Variable env : world.
Import Bus.

Implicit Types (b : bus Mon).

Lemma connect_eq path b :
  _connect env path b =
  let b1 := logged [bt_connect path;
                    bt_property_bool path INTERFACE_DEVICE "Connected"] b in
  match connect_result env path with
  | Returned _ => (Returned tt, b1)
  | Raised ex =>
      if property_bool env path INTERFACE_DEVICE "Connected"
      then (Returned tt, b1) else (Raised ex, b1)
  | Suspended => (Suspended, logged [bt_connect path] b)
  end.
Proof.
  unfold _connect, await_bt_connect, completion, _property_bool, logged.
  run_m.
  destruct (connect_result env path) as [[]|ex|]; simpl;
    rewrite <- ?app_assoc; simpl; try reflexivity.
  destruct (property_bool env path INTERFACE_DEVICE "Connected"); reflexivity.
Qed.

Lemma dev_property_spec path name b :
  exists o b',
    _dev_property path name b = (o, b') /\
    (forall e, o <> Raised e) /\
    calls b' = calls b ++
      match _data b !! (path, INTERFACE_DEVICE) with
      | None => [bt_property_monitor_start path INTERFACE_DEVICE]
      | Some _ => []
      end.
Proof.
  unfold _dev_property, _dev_property_start, _dev_property_get, _dev_property_stop.
  destruct (start_spec path INTERFACE_DEVICE name b)
    as (b1 & Hstart & [data Hd] & _ & _ & Hcalls).
  unfold mbind, M_bind. rewrite Hstart. unfold try_finally.
  rewrite get_eq, Hd.
  destruct (monitor_get data name) as [[v data']|].
  - unfold mbind, M_bind. rewrite stop_eq. simpl.
    rewrite lookup_insert_eq. eexists _, _. split; [reflexivity|].
    split; [discriminate|]. exact Hcalls.
  - eexists _, _. split; [reflexivity|]. split; [discriminate|]. exact Hcalls.
Qed.

Lemma connect_and_resolve_spec path b :
  exists o b',
    _connect_and_resolve env path b = (o, b') /\
    match connect_result env path with
    | Suspended => o = Suspended /\ calls b' = calls b ++ [bt_connect path]
    | r =>
        let connected_calls :=
          [bt_connect path; bt_property_bool path INTERFACE_DEVICE "Connected"] in
        match r, property_bool env path INTERFACE_DEVICE "Connected" with
        | Raised ex, false =>
            o = Raised ex /\ calls b' = calls b ++ connected_calls
        | _, _ =>
            (forall e, o <> Raised e) /\
            calls b' = calls b ++ connected_calls ++ resolve_calls env path b
        end
    end.
Proof.
  unfold _connect_and_resolve. unfold mbind at 1, M_bind at 1.
  rewrite connect_eq. cbv zeta.
  set (b1 := logged [bt_connect path;
                     bt_property_bool path INTERFACE_DEVICE "Connected"] b).
  assert (exists o b',
    (_property_bool env path "ServicesResolved"
       ≫= λ resolved : bool,
         try_finally
           (if resolved then mret ()
            else _dev_property path "ServicesResolved" ≫= λ _ : value, mret ())
           (close (_dev_property path "ServicesResolved"))) b1 = (o, b') /\
    (forall e, o <> Raised e) /\
    calls b' = calls b ++ [bt_connect path;
                 bt_property_bool path INTERFACE_DEVICE "Connected"]
                 ++ resolve_calls env path b) as Hres.
  { unfold _property_bool, resolve_calls. run_m.
    destruct (property_bool env path INTERFACE_DEVICE "ServicesResolved").
    - eexists _, _. split; [reflexivity|]. split; [discriminate|].
      simpl. now rewrite <- app_assoc.
    - match goal with |- context [_dev_property path ?n ?s] =>
        destruct (dev_property_spec path n s) as (o & b' & -> & Hnr & Hc) end.
      simpl in Hc. rewrite <- !app_assoc in Hc. simpl in Hc.
      destruct o as [v|e|]; [| exfalso; exact (Hnr e eq_refl) |];
        eexists _, _; (split; [reflexivity|]);
        (split; [discriminate|]); exact Hc. }
  destruct Hres as (o & b' & Hrun & Hnr & Hc).
  destruct (connect_result env path) as [[]|ex|].
  - exists o, b'. auto.
  - destruct (property_bool env path INTERFACE_DEVICE "Connected").
    + exists o, b'. auto.
    + eexists _, _. split; [reflexivity|]. split; reflexivity.
  - eexists _, _. split; [reflexivity|]. split; reflexivity.
Qed.

Lemma connect_raises mac b e :
  (connect env mac b).1 = Raised e <->
  (_connect_and_resolve env (_device_path mac)
     (logged [lock_acquire mac] b)).1 = Raised e.
Proof.
  unfold connect, _get_name. run_m. fold (logged [lock_acquire mac] b).
  destruct (_connect_and_resolve env (_device_path mac)
              (logged [lock_acquire mac] b)) as [[[]|e'|] b1]; simpl;
    try (destruct (_name b1 !! mac)); simpl; split; congruence.
Qed.

(** C4, as the code has it: when the connect request fails, with any
    error, [_connect] reads [Connected] again; if it is true the
    failure is dropped and [Bus.connect] does not raise, if it is false
    the error of the request is raised again, unchanged, and reaches
    the caller of [Bus.connect]. *)
Theorem connect_failure_requeries mac b ex :
  connect_result env (_device_path mac) = Raised ex ->
  let path := _device_path mac in
  let requery := [bt_connect path;
                  bt_property_bool path INTERFACE_DEVICE "Connected"] in
  if property_bool env path INTERFACE_DEVICE "Connected"
  then _connect env path b = (Returned tt, logged requery b) /\
       forall e, (connect env mac b).1 <> Raised e
  else _connect env path b = (Raised ex, logged requery b) /\
       (connect env mac b).1 = Raised ex.
Proof.
  intros Hfail path requery.
  pose proof (connect_eq path b) as Hc. cbv zeta in Hc.
  fold path in Hfail. rewrite Hfail in Hc.
  destruct (connect_and_resolve_spec path (logged [lock_acquire mac] b))
    as (o & b' & Hrun & Hspec).
  rewrite Hfail in Hspec. cbv zeta in Hspec.
  destruct (property_bool env path INTERFACE_DEVICE "Connected").
  - split; [exact Hc|]. intros e He. apply connect_raises in He.
    fold path in He. rewrite Hrun in He. simpl in He.
    destruct Hspec as [Hnr _]. exact (Hnr e He).
  - split; [exact Hc|]. apply connect_raises. fold path. rewrite Hrun.
    simpl. tauto.
Qed.

End BusFacts.

Lemma connect_failure_requeries_witness :
  let env := world_failing (NativeError "Already Connected") true in
  connect_result env (Bus._device_path sample_mac)
    = Raised (NativeError "Already Connected") /\
  Bus._connect env sample_path (@bus_init queue_monitor)
    = (Returned tt,
       logged [bt_connect sample_path;
               bt_property_bool sample_path INTERFACE_DEVICE "Connected"] bus_init).
Proof.
  split; [reflexivity|].
  exact (proj1 (@connect_failure_requeries _ silent
                  (world_failing (NativeError "Already Connected") true)
                  sample_mac bus_init _ eq_refl)).
Defined.

(** C4 as stated fails: a connect request that fails with an error that
    is not of the already-connected class does not reach the caller when
    the device reads as connected; [Bus.connect] returns the name. *)
Lemma connect_other_failure_counterexample :
  let ex := NativeError "Host is down" in
  let env := world_failing ex true in
  already_connected_class ex = false /\
  connect_result env sample_path = Raised ex /\
  (@Bus.connect _ silent env sample_mac bus_init).1 = Returned "SensorTag"%string.
Proof. repeat split. Qed.

(** C3, what the code does: in every execution of
    [_connect_and_resolve], on any bus, the native calls are a prefix of
    connect request, read of [Connected], read of [ServicesResolved],
    start of the monitor; the monitor is started only after the read
    of [ServicesResolved], since the coroutine object created before the
    read runs nothing until it is awaited.  On the sample device, whose
    services are not resolved yet, [Bus.connect] makes exactly these
    calls in this order. *)
Theorem connect_reads_before_monitoring :
  (forall (Mon : Type) (H : PropertyMonitor Mon) (env : world) (path : string)
          (b : bus Mon),
      let read_connected := bt_property_bool path INTERFACE_DEVICE "Connected" in
      let read_resolved :=
        bt_property_bool path INTERFACE_DEVICE "ServicesResolved" in
      let new :=
        drop (length (calls b)) (calls (Bus._connect_and_resolve env path b).2) in
      calls (Bus._connect_and_resolve env path b).2 = calls b ++ new /\
      (new = [bt_connect path] \/
       new = [bt_connect path; read_connected] \/
       new = [bt_connect path; read_connected; read_resolved] \/
       new = [bt_connect path; read_connected; read_resolved;
              bt_property_monitor_start path INTERFACE_DEVICE])) /\
  (let r := @Bus.connect _ resolving world_fresh sample_mac bus_init in
   r.1 = Returned "SensorTag"%string /\
   calls r.2 =
     [lock_acquire sample_mac;
      bt_connect sample_path;
      bt_property_bool sample_path INTERFACE_DEVICE "Connected";
      bt_property_bool sample_path INTERFACE_DEVICE "ServicesResolved";
      bt_property_monitor_start sample_path INTERFACE_DEVICE;
      lock_release sample_mac;
      bt_property_str sample_path INTERFACE_DEVICE "Name"]).
Proof.
  split; [|split; reflexivity].
  intros Mon H env path b read_connected read_resolved new.
  destruct (connect_and_resolve_spec env path b) as (o & b' & Hrun & Hspec).
  assert (exists l, calls b' = calls b ++ l /\
            (l = [bt_connect path] \/
             l = [bt_connect path; read_connected] \/
             l = [bt_connect path; read_connected; read_resolved] \/
             l = [bt_connect path; read_connected; read_resolved;
                  bt_property_monitor_start path INTERFACE_DEVICE]))
    as (l & Hl & Hcases).
  { unfold resolve_calls in Hspec.
    destruct (connect_result env path) as [[]|ex|];
      [ destruct Hspec as [_ ->]
      | destruct (property_bool env path INTERFACE_DEVICE "Connected");
        [destruct Hspec as [_ ->] | destruct Hspec as [_ ->]]
      | destruct Hspec as [_ ->] ];
      eexists; (split; [reflexivity|]); simpl;
      try (destruct (property_bool env path INTERFACE_DEVICE "ServicesResolved");
           [| destruct (_data b !! (path, INTERFACE_DEVICE))]);
      auto. }
  subst new. rewrite Hrun. simpl. rewrite Hl.
  rewrite drop_app_length. split; [reflexivity | exact Hcases].
Qed.

Section ConnectionManagerFacts.
Import ConnectionManager.

Lemma add_device_other devs dev address :
  mac dev <> address -> add_device devs dev !! address = devs !! address.
Proof. intros Hne. unfold add_device. now rewrite lookup_insert_ne. Qed.

Lemma add_devices_other devices : forall devs address,
  Forall (fun d => mac d <> address) devices ->
  foldl add_device devs devices !! address = devs !! address.
Proof.
  induction devices as [|dev devices IH]; intros devs address Hall; [reflexivity|].
  inversion Hall as [|? ? Hd Hrest]; subst. simpl.
  rewrite IH by exact Hrest. now apply add_device_other.
Qed.

(** Only [add] of a device with that address makes it managed. *)
Lemma add_other devices c address :
  Forall (fun d => mac d <> address) devices ->
  _devices c !! address = None -> _connected c !! address = None ->
  _devices (add devices c) !! address = None /\
  _connected (add devices c) !! address = None.
Proof.
  intros Hall Hd Hc. unfold add; simpl.
  rewrite lookup_union, lookup_fmap, add_devices_other by exact Hall.
  rewrite Hd, Hc. split; reflexivity.
Qed.

Lemma adds_other adds : forall c address,
  Forall (Forall (fun d => mac d <> address)) adds ->
  _devices c !! address = None -> _connected c !! address = None ->
  _connected (foldl (fun c devices => add devices c) c adds) !! address = None.
Proof.
  induction adds as [|devices adds IH]; intros c address Hall Hd Hc; [exact Hc|].
  inversion Hall as [|? ? H1 Hrest]; subst. simpl.
  destruct (add_other devices c address H1 Hd Hc) as [Hd' Hc'].
  now apply IH.
Qed.

(** C7, as the code has it: for an address that no device passed to
    [add] carries, [connected(address)] raises at once, without
    waiting on any event; the exception is a [ValueError]. *)
Theorem connected_unmanaged adds address :
  Forall (Forall (fun d => mac d <> address)) adds ->
  connected address (foldl (fun c devices => add devices c) init adds)
    = (Raised ValueError, []).
Proof.
  intros Hall. unfold connected.
  rewrite (adds_other adds init address Hall); [reflexivity| |];
    apply lookup_empty.
Qed.

Lemma connected_unmanaged_witness :
  connected "11:22:33:44:55:66"
    (foldl (fun c devices => add devices c) init
       [[ {| ident := 1; mac := "aa:bb:cc:dd:ee:ff" |};
          {| ident := 2; mac := "aa:bb:cc:dd:ee:ff" |} ]])
    = (Raised ValueError, []).
Proof.
  apply (connected_unmanaged
           [[ {| ident := 1; mac := "aa:bb:cc:dd:ee:ff" |};
              {| ident := 2; mac := "aa:bb:cc:dd:ee:ff" |} ]]
           "11:22:33:44:55:66").
  repeat constructor; discriminate.
Defined.

(** C7 as stated fails: the exception raised for an unmanaged address
    is not a [ConfigurationError]. *)
Lemma connected_unmanaged_counterexample :
  (connected sample_mac init).1 = Raised ValueError /\
  ~ exists msg, (connected sample_mac init).1 = Raised (ConfigurationError msg).
Proof.
  split; [reflexivity|]. intros [msg Hm]. vm_compute in Hm. discriminate.
Qed.

(** *** The enable/wait loop *)

Lemma count_app a l1 l2 : count a (l1 ++ l2) = (count a l1 + count a l2)%nat.
Proof. induction l1 as [|x l1 IH]; simpl; [reflexivity|]. rewrite IH. lia. Qed.

Lemma loop_head_eq q returned s :
  loop_head q returned s =
  if _process (cm s) then goto AtGather q (emit Attempt (emit EnableCall s))
  else goto Exited q s.
Proof. unfold loop_head, _enable. simpl. destruct (_process (cm s)); reflexivity. Qed.

Lemma wait_resolved_eq address q s :
  wait_resolved address q s =
  match q with
  | [] => goto AtResolved [] (emit AwaitResolved s)
  | v :: q' =>
      let s1 := emit (GotResolved v) (emit AwaitResolved s) in
      if _process (cm s) then goto AtGather q' (emit Attempt (emit EnableCall s1))
      else goto Exited q' s1
  end.
Proof. destruct q as [|v q']; simpl; [reflexivity|]. now rewrite loop_head_eq. Qed.

Lemma restart_counted address c : counted (_restart address c).
Proof.
  unfold _restart, counted. destruct (_connected c !! address); simpl.
  - rewrite loop_head_eq. simpl. destruct (_process c); simpl; lia.
  - lia.
Qed.

Ltac count_actions :=
  repeat (rewrite count_app; simpl); simpl; lia.

Lemma step_counted address s i : counted s -> counted (step address s i).
Proof.
  unfold counted. intros Hc.
  destruct (_process (cm s)) eqn:Hp; destruct (queue s) as [|v0 q'] eqn:Hq;
    destruct i as [[|e]|v|]; destruct (at_pc s) eqn:Hpc;
    try (destruct e); unfold step, _enable;
    repeat (progress (rewrite ?Hpc, ?Hp, ?Hq, ?loop_head_eq, ?wait_resolved_eq;
                      simpl));
    try exact Hc; count_actions.
Qed.

Lemma run_counted address inputs : forall s,
  counted s -> counted (run address inputs s).
Proof.
  induction inputs as [|i inputs IH]; intros s Hc; [exact Hc|].
  simpl. apply IH. now apply step_counted.
Qed.

(** C2, as the code has it: when an enable attempt fails with anything
    but a timeout, the readiness event of the address is cleared, the
    task does not raise, and it goes on to await the next
    [ServicesResolved] notification (a new attempt follows only when
    one is read); over a whole run [enable()] is called once at the
    start and once more per notification read; a per-attempt timeout,
    however, is retried at once inside [_enable] while the manager
    runs, without touching the event and without awaiting a
    notification. *)
Theorem enable_wait_loop address :
  (forall s e,
      at_pc s = AtGather -> e <> TimeoutError ->
      let s' := step address s (GatherDone (Failed e)) in
      _connected (cm s') !! address = Some false /\
      (forall x, at_pc s' <> Crashed x) /\
      acts s' = acts s ++ [CnClear; AwaitResolved] ++
        match queue s with
        | [] => []
        | v :: _ =>
            GotResolved v ::
            if _process (cm s) then [EnableCall; Attempt] else []
        end) /\
  (forall c inputs,
      let s := run address inputs (_restart address c) in
      let E := count EnableCall (acts s) in
      let G := count (GotResolved true) (acts s) in
      (G <= E <= S G)%nat /\
      (at_pc s = AtGather \/ at_pc s = AtResolved -> E = S G) /\
      (E <= count Attempt (acts s) <= E + count TimeoutLogged (acts s))%nat) /\
  (forall s,
      at_pc s = AtGather -> _process (cm s) = true ->
      step address s (GatherDone (Failed TimeoutError)) =
        goto AtGather (queue s) (emit Attempt (emit TimeoutLogged s))).
Proof.
  split; [|split].
  - intros s e Hpc Hne. unfold step. rewrite Hpc.
    assert (forall q,
      let s' := wait_resolved address q (cn_clear address s) in
      _connected (cm s') !! address = Some false /\
      (forall x, at_pc s' <> Crashed x) /\
      acts s' = acts s ++ [CnClear; AwaitResolved] ++
        match q with
        | [] => []
        | v :: _ =>
            GotResolved v ::
            if _process (cm s) then [EnableCall; Attempt] else []
        end) as Hclear.
    { intros q. rewrite wait_resolved_eq.
      destruct q as [|v q']; [|destruct (_process (cm s)) eqn:Hp]; simpl;
        rewrite ?Hp; simpl; rewrite lookup_insert_eq, <- ?app_assoc; simpl;
        (split; [reflexivity|]); (split; [discriminate|]); reflexivity. }
    destruct e; try (exact (Hclear (queue s))). congruence.
  - intros c inputs.
    pose proof (run_counted address inputs _ (restart_counted address c)) as Hc.
    unfold counted in Hc. cbv zeta in *. destruct Hc as (Hpc & HA).
    split; [|split].
    + destruct (at_pc (run address inputs (_restart address c))); lia.
    + intros [Hg|Hg]; rewrite Hg in Hpc; exact Hpc.
    + exact HA.
  - intros s Hpc Hp. unfold step, _enable. rewrite Hpc. simpl. now rewrite Hp.
Qed.

Lemma enable_wait_loop_witness :
  let s := _restart sample_mac sample in
  at_pc s = AtGather /\
  _connected
    (cm (step sample_mac s (GatherDone (Failed (NativeError "Not connected")))))
    !! sample_mac = Some false /\
  step sample_mac s (GatherDone (Failed TimeoutError)) =
    goto AtGather (queue s) (emit Attempt (emit TimeoutLogged s)).
Proof.
  split; [reflexivity|]. split.
  - apply (proj1 (enable_wait_loop sample_mac)
             (_restart sample_mac sample) (NativeError "Not connected")
             eq_refl).
    discriminate.
  - apply (proj2 (proj2 (enable_wait_loop sample_mac))); reflexivity.
Defined.

(** C2 as stated fails: after an attempt that times out, the event is
    still set and a third attempt is under way although a single
    notification was ever observed. *)
Lemma enable_timeout_retry_counterexample :
  let s := run sample_mac
             [GatherDone Enabled; Notified true;
              GatherDone (Failed TimeoutError)]
             (_restart sample_mac sample) in
  acts s = [EnableCall; Attempt; CnSet; AwaitResolved;
            GotResolved true; EnableCall; Attempt;
            TimeoutLogged; Attempt] /\
  at_pc s = AtGather /\
  _connected (cm s) !! sample_mac = Some true /\
  count CnClear (acts s) = 0%nat /\
  count Attempt (acts s) = 3%nat /\
  count (GotResolved true) (acts s) = 1%nat.
Proof. vm_compute. repeat split; reflexivity. Qed.

End ConnectionManagerFacts.

(* ================================================================== *)
(** * Further properties of the serial engine *)

Section SerialMore.
Import Serial.

Lemma ceil_div20_bounds a :
  20 * (ceil_div20 a - 1) < a <= 20 * ceil_div20 a.
Proof.
  unfold ceil_div20.
  pose proof (Z.div_mod (a + 19) 20 ltac:(lia)) as Hdm.
  pose proof (Z.mod_pos_bound (a + 19) 20 ltac:(lia)) as Hb.
  lia.
Qed.

(** X1: inside the loop of [read], where the buffer is short of [n], the
    grant [credits_for data n] is a byte value of at least 1; up to 5100
    missing bytes it is the least number of 20-byte frames that holds
    them, beyond that it is the cap 255.  With nothing missing the
    result is not positive. *)
Theorem credits_for_covers data n :
  (len data < n ->
   1 <= credits_for data n <= 255 /\
   (n - len data <= 5100 ->
    20 * (credits_for data n - 1) < n - len data <= 20 * credits_for data n) /\
   (5100 < n - len data -> credits_for data n = 255)) /\
  (n <= len data -> credits_for data n <= 0).
Proof.
  rewrite credits_for_eq.
  pose proof (ceil_div20_bounds (n - len data)) as Hb.
  split.
  - intros Hlt. split; [|split]; lia.
  - intros Hge. lia.
Qed.

Lemma credits_for_covers_witness :
  len (replicate 90 x00) < 100 /\
  20 * (credits_for (replicate 90 x00) 100 - 1) < 100 - len (replicate 90 x00)
    <= 20 * credits_for (replicate 90 x00) 100.
Proof.
  assert (len (replicate 90 x00) < 100) as Hlt by (vm_compute; reflexivity).
  split; [exact Hlt|].
  apply (proj1 (proj2 (proj1 (credits_for_covers (replicate 90 x00) 100) Hlt))).
  vm_compute. discriminate.
Defined.

(** The run of the loop of [read], whatever the ledger: the trace grows,
    one frame is received per frame taken from the channel, and the
    ledger moves by the grants minus the frames. *)
Lemma read_loop_run n tx : forall data s,
  exists new,
    trace (read_loop n tx data s).1.2 = trace s ++ new /\
    frames_received new =
      Z.of_nat (length tx) - Z.of_nat (length (read_loop n tx data s).2) /\
    _rx_credits (read_loop n tx data s).1.2 =
      _rx_credits s + granted new - frames_received new.
Proof.
  induction tx as [|item tx IH]; intros data s; rewrite read_loop_eq;
    (destruct (len data <? n) eqn:Hlt;
     [ apply Z.ltb_lt in Hlt;
       destruct (rx_credits_mgr_enter_spec data n s Hlt)
         as (s1 & new1 & He & Htr & Hc & Hf & _);
       rewrite He
     | exists []; rewrite app_nil_r;
       destruct (len data =? n); simpl;
       unfold granted, frames_received; simpl;
       (split; [reflexivity|split; lia]) ]).
  - exists (new1 ++ [AwaitFrame (_rx_credits s1)]). simpl.
    rewrite Htr, <- app_assoc. split; [reflexivity|].
    rewrite granted_app, frames_received_app.
    unfold granted at 2, frames_received at 2. simpl.
    split; lia.
  - cbv zeta.
    set (s2 := _rx_credits_mgr_exit
                 (log (GotFrame item) (log (AwaitFrame (_rx_credits s1)) s1))).
    destruct (IH (data ++ item) s2) as (new2 & Htr2 & Hf2 & Hc2).
    exists (new1 ++ [AwaitFrame (_rx_credits s1); GotFrame item;
                     Ledger (_rx_credits s1 - 1)] ++ new2).
    split.
    { rewrite Htr2. subst s2. simpl. rewrite Htr, <- !app_assoc. reflexivity. }
    rewrite !granted_app, !frames_received_app.
    unfold granted at 2, frames_received at 2. simpl length.
    subst s2. simpl in Hc2 |- *.
    split; lia.
Qed.

Lemma rx_credits_mgr_enter_idle data n s :
  1 <= _rx_credits s -> _rx_credits_mgr_enter data n s = (Returned tt, s).
Proof.
  intros Hc. unfold _rx_credits_mgr_enter.
  now replace (_rx_credits s <? 1) with false by (symmetry; apply Z.ltb_ge; lia).
Qed.

(** With more credit outstanding than frames to come, the loop writes
    nothing to the bus. *)
Lemma read_loop_silent n tx : forall data s,
  Z.of_nat (length tx) < _rx_credits s ->
  exists new,
    trace (read_loop n tx data s).1.2 = trace s ++ new /\
    Forall silent_event new /\ granted new = 0.
Proof.
  induction tx as [|item tx IH]; intros data s Hl; rewrite read_loop_eq;
    (destruct (len data <? n) eqn:Hlt;
     [ rewrite rx_credits_mgr_enter_idle by (simpl in Hl; lia)
     | exists []; rewrite app_nil_r;
       destruct (len data =? n); simpl;
       (split; [reflexivity|split; [constructor|reflexivity]]) ]).
  - exists [AwaitFrame (_rx_credits s)]. simpl.
    split; [reflexivity|]. split; [repeat constructor|reflexivity].
  - cbv zeta.
    set (s2 := _rx_credits_mgr_exit
                 (log (GotFrame item) (log (AwaitFrame (_rx_credits s)) s))).
    destruct (IH (data ++ item) s2) as (new2 & Htr2 & Hs2 & Hg2).
    { subst s2. simpl in Hl |- *. lia. }
    exists ([AwaitFrame (_rx_credits s); GotFrame item;
             Ledger (_rx_credits s - 1)] ++ new2).
    split.
    { rewrite Htr2. subst s2. simpl. rewrite <- !app_assoc. reflexivity. }
    split.
    { apply Forall_app. split; [repeat constructor | exact Hs2]. }
    rewrite granted_app, Hg2. reflexivity.
Qed.

(** X2: a frame that takes the buffer of [read(n)] beyond [n] makes the
    final assertion fail: [read] raises [AssertionError] after it has
    taken every frame up to and including that one from the channel, one
    credit each, so the bytes read are lost to the caller; a negative
    [n] raises at once, with no frame taken and nothing written. *)
Theorem read_overshoot_raises n :
  (forall init last rest s,
      len (concat init) < n ->
      n < len (concat init) + len last ->
      exists s',
        read n (init ++ last :: rest) s = (Raised AssertionError, s', rest) /\
        _rx_credits s' =
          _rx_credits s
          + granted (drop (length (trace s)) (trace s'))
          - Z.of_nat (S (length init))) /\
  (n < 0 -> forall tx s, read n tx s = (Raised AssertionError, s, tx)).
Proof.
  split.
  - intros init last rest s Hlt Hover.
    assert (forall (pre : list (list byte)) data s0,
              len (data ++ concat pre) < n ->
              n < len (data ++ concat pre) + len last ->
              (read_loop n (pre ++ last :: rest) data s0).1.1
                = Raised AssertionError /\
              (read_loop n (pre ++ last :: rest) data s0).2 = rest) as Hloop.
    { induction pre as [|f pre IH]; intros data s0 H1 H2; simpl in H1, H2;
        rewrite <- ?app_comm_cons; rewrite read_loop_eq.
      - rewrite app_nil_r in H1, H2. rewrite app_nil_l.
        replace (len data <? n) with true by (symmetry; apply Z.ltb_lt; lia).
        destruct (rx_credits_mgr_enter_spec data n s0 H1) as (s1 & ? & -> & _).
        cbv zeta. rewrite read_loop_eq.
        replace (len (data ++ last) <? n) with false
          by (symmetry; apply Z.ltb_ge; rewrite len_app; lia).
        replace (len (data ++ last) =? n) with false
          by (symmetry; apply Z.eqb_neq; rewrite len_app; lia).
        split; reflexivity.
      - assert (len data < n) as Hd.
        { rewrite !len_app in H1.
          pose proof (len_nonneg f). pose proof (len_nonneg (concat pre)). lia. }
        replace (len data <? n) with true by (symmetry; apply Z.ltb_lt; lia).
        destruct (rx_credits_mgr_enter_spec data n s0 Hd) as (s1 & ? & -> & _).
        cbv zeta. rewrite (app_assoc data f) in H1, H2.
        apply IH; assumption. }
    destruct (Hloop init [] s Hlt Hover) as [Ho Hr].
    destruct (read_loop_run n (init ++ last :: rest) [] s)
      as (new & Htr & Hf & Hc).
    fold (read n (init ++ last :: rest) s) in *.
    destruct (read n (init ++ last :: rest) s) as [[o s'] tx'] eqn:Hrun.
    simpl in *. subst o tx'. exists s'. split; [reflexivity|].
    rewrite Htr, drop_app_length, Hc, Hf.
    rewrite length_app. simpl length. lia.
  - intros Hneg tx s. unfold read. rewrite read_loop_eq.
    change (len (@nil byte)) with 0.
    replace (0 <? n) with false by (symmetry; apply Z.ltb_ge; lia).
    replace (0 =? n) with false by (symmetry; apply Z.eqb_neq; lia).
    reflexivity.
Qed.

Lemma read_overshoot_raises_witness :
  exists s',
    read 25 ([frame20] ++ frame20 :: [[x01]]) connected
      = (Raised AssertionError, s', [[x01]]) /\
    _rx_credits s' =
      _rx_credits connected
      + granted (drop (length (trace connected)) (trace s'))
      - Z.of_nat (S (length [frame20])).
Proof.
  apply (proj1 (read_overshoot_raises 25) [frame20] frame20 [[x01]] connected);
    reflexivity.
Defined.

(** X3: while the credit outstanding exceeds the number of frames that
    arrive, [read] writes nothing to the bus and grants nothing: it only
    awaits frames, each costing one credit. *)
Theorem read_within_credit n tx s :
  Z.of_nat (length tx) < _rx_credits s ->
  Forall silent_event (drop (length (trace s)) (trace (read n tx s).1.2)) /\
  granted (trace (read n tx s).1.2) = granted (trace s) /\
  _rx_credits (read n tx s).1.2 =
    _rx_credits s - (Z.of_nat (length tx) - Z.of_nat (length (read n tx s).2)).
Proof.
  intros Hl. unfold read.
  destruct (read_loop_silent n tx [] s Hl) as (new & Htr & Hs & Hg).
  destruct (read_loop_run n tx [] s) as (new' & Htr' & Hf & Hc).
  rewrite Htr in Htr'. apply app_inv_head in Htr'. subst new'.
  rewrite Htr, drop_app_length, granted_app, Hc, Hf, Hg.
  split; [exact Hs|]. split; lia.
Qed.

Lemma read_within_credit_witness :
  Z.of_nat (length [frame20; frame20]) < _rx_credits connected /\
  granted (trace (read 40 [frame20; frame20] connected).1.2)
    = granted (trace connected).
Proof.
  assert (Z.of_nat (length [frame20; frame20]) < _rx_credits connected) as Hl
    by (vm_compute; reflexivity).
  split; [exact Hl|].
  exact (proj1 (proj2 (read_within_credit 40 [frame20; frame20] connected Hl))).
Defined.

(** X4: [_add_rx_credits(n)] sends [n] as one byte: for [n] in 0..255
    the byte written to the credit characteristic decodes to [n] and the
    ledger grows by [n]; for any other [n] the byte cannot be built, a
    [ValueError] is raised, nothing is written and the ledger stays. *)
Theorem add_rx_credits_bounds n s :
  (0 <= n <= 255 ->
   exists b, Z.of_N (Byte.to_N b) = n /\
     _add_rx_credits n s =
       (Returned tt,
        {| _rx_credits := _rx_credits s + n;
           trace := trace s ++ [BtWrite UUID_RX_CREDIT [b];
                                Ledger (_rx_credits s + n)] |})) /\
  (n < 0 \/ 255 < n -> _add_rx_credits n s = (Raised ValueError, s)).
Proof.
  split.
  - intros Hn. apply add_rx_credits_ok. lia.
  - intros Hn. unfold _add_rx_credits, bytes1.
    destruct ((0 <=? n) && (n <? 256)) eqn:Hr; [|reflexivity].
    apply andb_true_iff in Hr. destruct Hr as [H0 H1].
    apply Z.leb_le in H0. apply Z.ltb_lt in H1. lia.
Qed.

Lemma add_rx_credits_bounds_witness :
  _add_rx_credits 256 connected = (Raised ValueError, connected) /\
  exists b, Z.of_N (Byte.to_N b) = 255 /\
    (_add_rx_credits 255 connected).1 = Returned tt.
Proof.
  split.
  - apply (proj2 (add_rx_credits_bounds 256 connected)). right. reflexivity.
  - destruct (proj1 (add_rx_credits_bounds 255 connected)) as (b & Hb & Hrun).
    + split; discriminate.
    + exists b. split; [exact Hb|]. rewrite Hrun. reflexivity.
Defined.

(** X5: [write(data)] refuses more than 20 bytes with an
    [AssertionError] before anything is written or any credit
    notification is taken.  Otherwise it returns, its last write is
    [data] on the data characteristic, it first grants 32 credits
    exactly when the ledger is below 1, it never lowers the ledger, and
    it takes one credit notification from the queue when there is one. *)
Theorem write_behaviour data tx_credit s :
  (20 < len data ->
   write data tx_credit s = (Raised AssertionError, s, tx_credit)) /\
  (len data <= 20 ->
   exists s' grant,
     write data tx_credit s = (Returned tt, s', tail tx_credit) /\
     trace s' = trace s ++ grant ++ [BtWrite UUID_RX_UART data] /\
     (if _rx_credits s <? 1
      then granted grant = 32 /\ _rx_credits s' = _rx_credits s + 32
      else grant = [] /\ _rx_credits s' = _rx_credits s)).
Proof.
  unfold write. split.
  - intros Hlen.
    now replace (len data <=? 20) with false by (symmetry; apply Z.leb_gt; lia).
  - intros Hlen.
    replace (len data <=? 20) with true by (symmetry; apply Z.leb_le; lia).
    destruct (_rx_credits s <? 1) eqn:Hc.
    + destruct (add_rx_credits_ok 32 s ltac:(lia)) as (b & Hb & ->).
      eexists _, [BtWrite UUID_RX_CREDIT [b]; Ledger (_rx_credits s + 32)].
      split; [destruct tx_credit; reflexivity|]. simpl.
      split; [now rewrite <- app_assoc|].
      unfold granted; simpl. rewrite Hb. split; [lia | reflexivity].
    + exists (_write UUID_RX_UART data s), [].
      split; [destruct tx_credit; reflexivity|].
      simpl. auto.
Qed.

Lemma write_behaviour_witness :
  write (replicate 21 x00) [[x01]] connected
    = (Raised AssertionError, connected, [[x01]]) /\
  exists s' grant,
    write frame20 [[x01]] connected = (Returned tt, s', tail [[x01]]) /\
    trace s' = trace connected ++ grant ++ [BtWrite UUID_RX_UART frame20].
Proof.
  split.
  - apply (proj1 (write_behaviour (replicate 21 x00) [[x01]] connected)).
    reflexivity.
  - destruct (proj2 (write_behaviour frame20 [[x01]] connected))
      as (s' & grant & Hrun & Htr & _).
    + vm_compute. discriminate.
    + exists s', grant. split; assumption.
Defined.

(** X6: [connect()] passes on a failure of [BUS.connect] and leaves the
    session untouched.  When the bus connection is made it restarts the
    ledger: whatever it held before, it is 32 afterwards, and the only
    write is the grant byte 32 on the credit characteristic.  It then
    returns with the peer's first credit notification, and stays
    suspended, the grant already written, as long as none arrives. *)
Theorem connect_restarts_ledger tx_credit s :
  (forall e, connect (Raised e) tx_credit s = (Raised e, s, tx_credit)) /\
  (forall name,
      exists s',
        _rx_credits s' = 32 /\
        trace s' = trace s ++ [BtWrite UUID_RX_CREDIT [x20]; Ledger 32] /\
        connect (Returned name) tx_credit s =
          (match tx_credit with [] => Suspended | _ => Returned tt end,
           s', tail tx_credit)).
Proof.
  split; [reflexivity|].
  intros name. unfold connect, _add_rx_credits, bytes1.
  simpl. unfold set_rx_credits, _write, log. simpl.
  eexists. split; [|split]; [| |destruct tx_credit; reflexivity].
  - reflexivity.
  - simpl. now rewrite <- app_assoc.
Qed.

End SerialMore.

(* ================================================================== *)
(** * Further properties of the bus manager *)

Section BusMore.

Lemma mac_char c :
  let norm c := Bus.upper (if Ascii.eqb c ":"%char then "_"%char else c) in
  norm c <> ":"%char /\ ~ lowercase (norm c) /\
  norm (norm c) = norm c /\ norm (Bus.upper c) = norm c.
Proof.
  destruct c as [[] [] [] [] [] [] [] []]; vm_compute;
    (split; [discriminate|split; [lia|split; reflexivity]]).
Qed.

Lemma string_length_append s1 s2 :
  String.length (s1 +:+ s2) = (String.length s1 + String.length s2)%nat.
Proof. induction s1 as [|c s1 IH]; simpl; [reflexivity | now rewrite IH]. Qed.

(** X7: for an ASCII address, [_mac] keeps the length, leaves no colon
    and no lower-case letter, is idempotent and does not depend on the
    letter case of its argument; [_device_path] prepends the 20
    characters of the adapter prefix. *)
Theorem mac_normal_form mac :
  Forall is_ascii (chars mac) ->
  String.length (Bus._mac mac) = String.length mac /\
  Forall (fun c => c <> ":"%char /\ ~ lowercase c) (chars (Bus._mac mac)) /\
  Bus._mac (Bus._mac mac) = Bus._mac mac /\
  Bus._mac (Bus.string_map Bus.upper mac) = Bus._mac mac /\
  String.length (Bus._device_path mac) = (20 + String.length mac)%nat.
Proof.
  intros _. unfold Bus._device_path. rewrite string_length_append.
  unfold Bus._mac.
  induction mac as [|c mac (IH1 & IH2 & IH3 & IH4 & IH5)]; simpl.
  - repeat split; constructor.
  - destruct (mac_char c) as (H1 & H2 & H3 & H4). cbv zeta in *.
    split; [now rewrite IH1|]. split; [constructor; [split; assumption|exact IH2]|].
    split; [now rewrite H3, IH3|]. split; [now rewrite H4, IH4|].
    simpl in IH5. lia.
Qed.

Lemma mac_normal_form_witness :
  Forall is_ascii (chars sample_mac) /\
  Bus._mac (Bus._mac sample_mac) = Bus._mac sample_mac /\
  String.length (Bus._device_path sample_mac) = (20 + String.length sample_mac)%nat.
Proof.
  assert (Forall is_ascii (chars sample_mac)) as Ha
    by (repeat constructor; vm_compute; lia).
  split; [exact Ha|].
  destruct (mac_normal_form sample_mac Ha) as (_ & _ & H3 & _ & H5).
  split; assumption.
Defined.

End BusMore.

Section BusConnect.
Context {Mon : Type} `{PropertyMonitor Mon}.
Variable env : world.
Import Bus.

Implicit Types (b : bus Mon).

(** [connect] in terms of its locked section. *)
Lemma connect_unfold mac b :
  connect env mac b =
  match _connect_and_resolve env (_device_path mac) (logged [lock_acquire mac] b) with
  | (Returned _, b1) => _get_name env mac (logged [lock_release mac] b1)
  | (Raised e, b1) => (Raised e, logged [lock_release mac] b1)
  | (Suspended, b1) => (Suspended, b1)
  end.
Proof.
  unfold connect. run_m. fold (logged [lock_acquire mac] b).
  destruct (_connect_and_resolve env (_device_path mac)
              (logged [lock_acquire mac] b)) as [[[]|e|] b1]; reflexivity.
Qed.

Lemma get_name_eq mac b :
  _get_name env mac b =
  match _name b !! mac with
  | Some name => (Returned name, b)
  | None =>
      let path := _device_path mac in
      let name := property_str env path INTERFACE_DEVICE "Name" in
      (Returned name,
       {| _data := _data b; _name := <[mac := name]> (_name b);
          calls := calls b ++ [bt_property_str path INTERFACE_DEVICE "Name"] |})
  end.
Proof. unfold _get_name. run_m. destruct (_name b !! mac); reflexivity. Qed.

(** The native calls of the locked section, none of them on the lock. *)
Lemma connect_and_resolve_native path b :
  exists mid,
    calls (_connect_and_resolve env path b).2 = calls b ++ mid /\
    Forall is_native mid.
Proof.
  destruct (connect_and_resolve_spec env path b) as (o & b' & Hrun & Hspec).
  rewrite Hrun. simpl. unfold resolve_calls in Hspec.
  destruct (connect_result env path) as [[]|ex|];
    [ destruct Hspec as [_ ->]
    | destruct (property_bool env path INTERFACE_DEVICE "Connected");
      [destruct Hspec as [_ ->] | destruct Hspec as [_ ->]]
    | destruct Hspec as [_ ->] ];
    eexists; (split; [reflexivity|]);
    try (destruct (property_bool env path INTERFACE_DEVICE "ServicesResolved");
         [| destruct (_data b !! (path, INTERFACE_DEVICE))]);
    repeat constructor.
Qed.

(** X8: [Bus.connect] takes the lock of the address first and gives it
    back whenever it comes to an end, by return or by exception, after
    its last call in the locked section; the name of the device is read
    after the release, and only when the locked section succeeded.  A
    [connect] that stays suspended keeps the lock. *)
Theorem connect_lock mac b :
  exists mid,
    Forall is_native mid /\
    match (connect env mac b).1 with
    | Suspended =>
        calls (connect env mac b).2 = calls b ++ lock_acquire mac :: mid
    | Raised _ =>
        calls (connect env mac b).2 =
          calls b ++ lock_acquire mac :: mid ++ [lock_release mac]
    | Returned _ =>
        exists after,
          calls (connect env mac b).2 =
            calls b ++ lock_acquire mac :: mid ++ lock_release mac :: after /\
          (after = [] \/
           after = [bt_property_str (_device_path mac) INTERFACE_DEVICE "Name"])
    end.
Proof.
  destruct (connect_and_resolve_native (_device_path mac)
              (logged [lock_acquire mac] b)) as (mid & Hmid & Hnat).
  exists mid. split; [exact Hnat|].
  rewrite connect_unfold.
  destruct (_connect_and_resolve env (_device_path mac)
              (logged [lock_acquire mac] b)) as [[[]|e|] b1];
    simpl in Hmid |- *.
  - rewrite get_name_eq. simpl.
    destruct (_name b1 !! mac); simpl; rewrite Hmid, <- !app_assoc; simpl;
      eexists; (split; [reflexivity|]); auto.
  - rewrite Hmid, <- !app_assoc. reflexivity.
  - rewrite Hmid, <- !app_assoc. reflexivity.
Qed.

(** X9: [Bus.connect] raises exactly when the connect request fails and
    the device does not read as connected, and then it raises the error
    of the request; nothing else in it raises. *)
Theorem connect_raises_iff mac b e :
  (connect env mac b).1 = Raised e <->
  connect_result env (_device_path mac) = Raised e /\
  property_bool env (_device_path mac) INTERFACE_DEVICE "Connected" = false.
Proof.
  rewrite connect_raises.
  destruct (connect_and_resolve_spec env (_device_path mac)
              (logged [lock_acquire mac] b)) as (o & b' & Hrun & Hspec).
  rewrite Hrun. simpl.
  destruct (connect_result env (_device_path mac)) as [[]|ex|].
  - destruct Hspec as [Hnr _]. split; [intros He; destruct (Hnr e He)|].
    intros [Hd _]; discriminate.
  - destruct (property_bool env (_device_path mac) INTERFACE_DEVICE "Connected").
    + destruct Hspec as [Hnr _]. split; [intros He; destruct (Hnr e He)|].
      intros [_ Hd]; discriminate.
    + destruct Hspec as [-> _]. split; [intros [= ->]; auto | intros [[= ->] _]; auto].
  - destruct Hspec as [-> _]. split; [discriminate | intros [Hd _]; discriminate].
Qed.

(** X10: on a device whose services read as resolved, and which is
    connected by the request or reads as connected after a failed one,
    [Bus.connect] returns the name of the device without waiting: it
    starts no monitor, leaves the channel table as it was, and makes the
    five calls below, followed by the read of the name unless the name
    is cached. *)
Theorem connect_when_resolved mac b :
  let path := _device_path mac in
  property_bool env path INTERFACE_DEVICE "ServicesResolved" = true ->
  connect_result env path <> Suspended ->
  (forall e, connect_result env path = Raised e ->
             property_bool env path INTERFACE_DEVICE "Connected" = true) ->
  (connect env mac b).1 =
    Returned (default (property_str env path INTERFACE_DEVICE "Name")
                (_name b !! mac)) /\
  _data (connect env mac b).2 = _data b /\
  calls (connect env mac b).2 =
    calls b ++
    [lock_acquire mac; bt_connect path;
     bt_property_bool path INTERFACE_DEVICE "Connected";
     bt_property_bool path INTERFACE_DEVICE "ServicesResolved";
     lock_release mac] ++
    match _name b !! mac with
    | Some _ => []
    | None => [bt_property_str path INTERFACE_DEVICE "Name"]
    end.
Proof.
  intros path Hres Hns Hconn.
  assert (_connect_and_resolve env path (logged [lock_acquire mac] b) =
          (Returned tt,
           logged [lock_acquire mac; bt_connect path;
                   bt_property_bool path INTERFACE_DEVICE "Connected";
                   bt_property_bool path INTERFACE_DEVICE "ServicesResolved"] b))
    as Hcar.
  { unfold _connect_and_resolve. unfold mbind at 1, M_bind at 1.
    rewrite connect_eq. cbv zeta.
    assert (forall b0 : bus Mon,
      (_property_bool env path "ServicesResolved"
         ≫= λ resolved : bool,
           try_finally
             (if resolved then mret ()
              else _dev_property path "ServicesResolved" ≫= λ _ : value, mret ())
             (close (_dev_property path "ServicesResolved"))) b0 =
      (Returned tt,
       logged [bt_property_bool path INTERFACE_DEVICE "ServicesResolved"] b0))
      as Hrest.
    { intros b0. unfold _property_bool. run_m. rewrite Hres. reflexivity. }
    destruct (connect_result env path) as [[]|ex|] eqn:Hcr.
    - rewrite Hrest. unfold logged; simpl. now rewrite <- !app_assoc.
    - rewrite (Hconn ex eq_refl). rewrite Hrest. unfold logged; simpl.
      now rewrite <- !app_assoc.
    - congruence. }
  rewrite connect_unfold. fold path. rewrite Hcar, get_name_eq. simpl.
  destruct (_name b !! mac); simpl; rewrite <- ?app_assoc; auto.
Qed.

End BusConnect.

Lemma connect_raises_iff_witness :
  (@Bus.connect _ silent (world_failing (NativeError "Host is down") false)
     sample_mac bus_init).1 = Raised (NativeError "Host is down").
Proof.
  apply (@connect_raises_iff _ silent). split; reflexivity.
Defined.

Lemma connect_when_resolved_witness :
  (@Bus.connect _ silent (world_failing (NativeError "Already Connected") true)
     sample_mac bus_init).1 = Returned "SensorTag"%string.
Proof.
  apply (@connect_when_resolved _ silent
           (world_failing (NativeError "Already Connected") true)
           sample_mac bus_init).
  - reflexivity.
  - discriminate.
  - intros e _. reflexivity.
Defined.

(* ================================================================== *)
(** * Further properties of the notification multiplexer *)

Section NotificationsMore.
Context {Mon : Type} `{PropertyMonitor Mon}.
Import Notifications.

Implicit Types (b : bus Mon).

(** X11: [start] never raises.  It starts a monitor, with one native
    call, exactly when the channel has no entry; a second [start] on the
    channel, for any property, makes no native call; other channels are
    left alone; and after it [get] and [size] on the channel do not
    raise [KeyError]: [size] returns what the monitor of the channel
    counts. *)
Theorem start_creates_once path iface name name' b :
  let b1 := (start path iface name b).2 in
  let b2 := (start path iface name' b1).2 in
  (start path iface name b).1 = Returned tt /\
  (start path iface name' b1).1 = Returned tt /\
  calls b1 = calls b ++
    match _data b !! (path, iface) with
    | None => [bt_property_monitor_start path iface]
    | Some _ => []
    end /\
  calls b2 = calls b1 /\
  (forall key, key <> (path, iface) -> _data b2 !! key = _data b !! key) /\
  (forall n,
      (get path iface n b2).1 <> Raised KeyError /\
      exists m, _data b2 !! (path, iface) = Some m /\
                size path iface n b2 = (Returned (monitor_size m n), b2)).
Proof.
  intros b1 b2. subst b1 b2.
  destruct (start_spec path iface name b) as (b1 & Hr1 & [m1 Hs1] & Ho1 & _ & Hc1).
  rewrite Hr1. simpl.
  destruct (start_spec path iface name' b1) as (b2 & Hr2 & [m2 Hs2] & Ho2 & _ & Hc2).
  rewrite Hr2. simpl. rewrite Hs1, app_nil_r in Hc2.
  split; [reflexivity|]. split; [reflexivity|]. split; [exact Hc1|].
  split; [exact Hc2|]. split.
  - intros key Hne. now rewrite Ho2, Ho1.
  - intros n. rewrite get_eq, size_eq, Hs2. split; [|eauto].
    destruct (monitor_get m2 n) as [[v m']|]; discriminate.
Qed.

(** [start] in closed form. *)
Lemma start_eq path iface name b :
  start path iface name b =
  let data := default (monitor_start path iface) (_data b !! (path, iface)) in
  (Returned tt,
   {| _data :=
        <[(path, iface) :=
            if monitor_is_registered data name then data
            else monitor_register data name]> (_data b);
      _name := _name b;
      calls := calls b ++
        match _data b !! (path, iface) with
        | None => [bt_property_monitor_start path iface]
        | Some _ => []
        end |}).
Proof.
  unfold start. run_m.
  destruct (_data b !! (path, iface)) as [data|] eqn:Hk; simpl.
  - rewrite Hk. rewrite bool_decide_true by eauto. rewrite app_nil_r.
    destruct (monitor_is_registered data name); simpl.
    + rewrite insert_id by exact Hk. now destruct b.
    + reflexivity.
  - rewrite lookup_insert_eq. rewrite bool_decide_true by eauto.
    destruct (monitor_is_registered (monitor_start path iface) name); simpl.
    + reflexivity.
    + now rewrite insert_insert_eq.
Qed.

(** X12: when [register] does register (the property reads as
    registered afterwards), a second [start] of the same property on
    the same channel changes nothing at all: no native call, no second
    registration. *)
Theorem start_idempotent path iface name b :
  (forall m, monitor_is_registered (monitor_register m name) name = true) ->
  start path iface name (start path iface name b).2
    = (Returned tt, (start path iface name b).2).
Proof.
  intros Hlaw. rewrite (start_eq path iface name b). cbv zeta. simpl.
  rewrite start_eq. cbv zeta. simpl. rewrite lookup_insert_eq. simpl.
  rewrite app_nil_r, insert_insert_eq.
  set (data := default (monitor_start path iface) (_data b !! (path, iface))).
  destruct (monitor_is_registered data name) eqn:Hreg.
  - now rewrite Hreg.
  - now rewrite Hlaw.
Qed.

End NotificationsMore.

Lemma start_creates_once_witness :
  let b2 := (@Notifications.start _ silent sample_path INTERFACE_DEVICE "Connected"
               (@Notifications.start _ silent sample_path INTERFACE_DEVICE
                  "ServicesResolved" bus_init).2).2 in
  _data b2 !! (sample_path, INTERFACE_GATT_CHR) = None.
Proof.
  cbv zeta.
  rewrite (proj1 (proj2 (proj2 (proj2 (proj2
             (@start_creates_once _ silent sample_path INTERFACE_DEVICE
                "ServicesResolved" "Connected" bus_init)))))
             (sample_path, INTERFACE_GATT_CHR)).
  - reflexivity.
  - discriminate.
Defined.

Lemma start_idempotent_witness :
  let b1 := (@Notifications.start _ silent sample_path INTERFACE_DEVICE
               "ServicesResolved" bus_init).2 in
  @Notifications.start _ silent sample_path INTERFACE_DEVICE "ServicesResolved" b1
    = (Returned tt, b1).
Proof.
  apply (@start_idempotent _ silent).
  intros m. simpl. reflexivity.
Defined.

Section GattMore.
Context {Mon : Type} `{PropertyMonitor Mon}.
Import Gatt.

Implicit Types (g : Gatt.t Mon).

(** X13: [_gatt_start] is not idempotent towards the binding: called
    twice on a characteristic it starts one monitor but switches the
    value notifications on twice.  After it [_gatt_size] returns the
    count of the monitor and does not raise.  [_gatt_stop] on a
    characteristic that was never started switches the notifications off
    in the binding and then raises [KeyError]. *)
Theorem gatt_start_stop path g :
  let g1 := (_gatt_start path g).2 in
  let g2 := (_gatt_start path g1).2 in
  (_gatt_start path g).1 = Returned tt /\
  (_gatt_start path g1).1 = Returned tt /\
  notify_calls g2 = notify_calls g ++ [bt_notify_start path; bt_notify_start path] /\
  calls (bus_of g2) = calls (bus_of g) ++
    match _data (bus_of g) !! (path, INTERFACE_GATT_CHR) with
    | None => [bt_property_monitor_start path INTERFACE_GATT_CHR]
    | Some _ => []
    end /\
  (exists m, _data (bus_of g2) !! (path, INTERFACE_GATT_CHR) = Some m /\
             _gatt_size path g2 = (Returned (monitor_size m "Value"), g2)) /\
  (_data (bus_of g) !! (path, INTERFACE_GATT_CHR) = None ->
   _gatt_stop path g =
     (Raised KeyError,
      {| bus_of := bus_of g;
         notify_calls := notify_calls g ++ [bt_notify_stop path] |})).
Proof.
  intros g1 g2. subst g1 g2.
  pose proof (start_creates_once path INTERFACE_GATT_CHR "Value" "Value" (bus_of g))
    as Hs. cbv zeta in Hs.
  destruct Hs as (Hr1 & Hr2 & Hc1 & Hc2 & _ & Hgs).
  unfold _gatt_start, _gatt_size, _gatt_stop, on_bus, log_notify. run_m.
  destruct (Notifications.start path INTERFACE_GATT_CHR "Value" (bus_of g))
    as [o1 b1] eqn:He1. simpl in *. subst o1. simpl.
  destruct (Notifications.start path INTERFACE_GATT_CHR "Value" b1)
    as [o2 b2] eqn:He2. simpl in *. subst o2. simpl.
  split; [reflexivity|]. split; [reflexivity|].
  split; [now rewrite <- app_assoc|].
  split; [now rewrite Hc2, Hc1|].
  split.
  - destruct (Hgs "Value"%string) as (_ & m & Hm & Hsz).
    exists m. split; [exact Hm|]. rewrite Hsz. destruct g; reflexivity.
  - intros Hnone. rewrite stop_eq, Hnone. reflexivity.
Qed.

End GattMore.

Lemma gatt_start_stop_witness :
  @Gatt._gatt_stop _ silent sample_path Gatt.init =
    (Raised KeyError,
     {| Gatt.bus_of := bus_init;
        Gatt.notify_calls := [Gatt.bt_notify_stop sample_path] |}).
Proof.
  apply (proj2 (proj2 (proj2 (proj2 (proj2
           (@gatt_start_stop _ silent sample_path Gatt.init)))))).
  reflexivity.
Defined.

(* ================================================================== *)
(** * Further properties of the connection manager *)

Section ConnectionManagerMore.
Import ConnectionManager.

Lemma add_device_keeps devs dev a i :
  i ∈ default ∅ (devs !! a) -> i ∈ default ∅ (add_device devs dev !! a).
Proof.
  intros Hi. unfold add_device.
  destruct (decide (mac dev = a)) as [->|Hne].
  - rewrite lookup_insert_eq. simpl. apply elem_of_union. now left.
  - now rewrite lookup_insert_ne.
Qed.

Lemma add_device_some devs dev a :
  is_Some (devs !! a) -> is_Some (add_device devs dev !! a).
Proof.
  intros Hs. unfold add_device.
  destruct (decide (mac dev = a)) as [->|Hne].
  - rewrite lookup_insert_eq. eauto.
  - now rewrite lookup_insert_ne.
Qed.

Lemma add_devices_keep devices : forall devs a,
  (forall i, i ∈ default ∅ (devs !! a) ->
             i ∈ default ∅ (foldl add_device devs devices !! a)) /\
  (is_Some (devs !! a) -> is_Some (foldl add_device devs devices !! a)).
Proof.
  induction devices as [|dev devices IH]; intros devs a; simpl; [auto|].
  destruct (IH (add_device devs dev) a) as [IH1 IH2].
  split.
  - intros i Hi. apply IH1. now apply add_device_keeps.
  - intros Hs. apply IH2. now apply add_device_some.
Qed.

Lemma add_devices_in devices : forall devs dev,
  In dev devices ->
  ident dev ∈ default ∅ (foldl add_device devs devices !! mac dev) /\
  is_Some (foldl add_device devs devices !! mac dev).
Proof.
  induction devices as [|d devices IH]; intros devs dev Hin; [destruct Hin|].
  simpl. destruct Hin as [->|Hin]; [|now apply IH].
  destruct (add_devices_keep devices (add_device devs dev) (mac dev)) as [K1 K2].
  split.
  - apply K1. unfold add_device. rewrite lookup_insert_eq. simpl.
    apply elem_of_union. right. now apply elem_of_singleton.
  - apply K2. unfold add_device. rewrite lookup_insert_eq. eauto.
Qed.

(** X14: after [add] every device passed is grouped under its
    address and its address is managed: [connected] on it does not raise
    but waits on a fresh, unset event.  Devices grouped before stay in
    their groups, and the event of every address grouped so far is
    replaced by an unset one, whatever it was. *)
Theorem add_manages devices c :
  (forall dev, In dev devices ->
     ident dev ∈ default ∅ (_devices (add devices c) !! mac dev) /\
     connected (mac dev) (add devices c) = (Suspended, [EventWait (mac dev)])) /\
  (forall a i, i ∈ default ∅ (_devices c !! a) ->
     i ∈ default ∅ (_devices (add devices c) !! a)) /\
  (forall a, is_Some (_devices c !! a) ->
     _connected (add devices c) !! a = Some false).
Proof.
  assert (forall a, is_Some (foldl add_device (_devices c) devices !! a) ->
                    _connected (add devices c) !! a = Some false) as Hfresh.
  { intros a [v Hv]. unfold add; simpl.
    rewrite lookup_union, lookup_fmap, Hv. simpl.
    destruct (_connected c !! a); reflexivity. }
  split; [|split].
  - intros dev Hin.
    destruct (add_devices_in devices (_devices c) dev Hin) as [Hi Hs].
    split; [exact Hi|]. unfold connected. now rewrite (Hfresh _ Hs).
  - intros a i Hi. now apply (add_devices_keep devices (_devices c) a).
  - intros a Hs. apply Hfresh. now apply (add_devices_keep devices (_devices c) a).
Qed.

Lemma add_manages_witness :
  let devices := [ {| ident := 1; mac := "aa:bb:cc:dd:ee:ff" |};
                   {| ident := 2; mac := "aa:bb:cc:dd:ee:ff" |} ] in
  connected "aa:bb:cc:dd:ee:ff" (add devices sample)
    = (Suspended, [EventWait "aa:bb:cc:dd:ee:ff"]).
Proof.
  cbv zeta.
  apply (proj1 (add_manages _ sample) {| ident := 2; mac := "aa:bb:cc:dd:ee:ff" |}).
  right. left. reflexivity.
Defined.

(** What one input does to the manager. *)
Lemma step_cm a s i :
  _process (cm (step a s i)) =
    match i with CloseCalled => false | _ => _process (cm s) end /\
  _devices (cm (step a s i)) = _devices (cm s) /\
  (forall a', a' <> a ->
     _connected (cm (step a s i)) !! a' = _connected (cm s) !! a') /\
  _connected (cm (step a s i)) !! a =
    match i, at_pc s with
    | GatherDone Enabled, AtGather => Some true
    | GatherDone (Failed TimeoutError), AtGather =>
        if _process (cm s) then _connected (cm s) !! a else Some true
    | GatherDone (Failed _), AtGather => Some false
    | _, _ => _connected (cm s) !! a
    end.
Proof.
  destruct (_process (cm s)) eqn:Hp; destruct (queue s) as [|v0 q'] eqn:Hq;
    destruct i as [[|e]|v|]; destruct (at_pc s) eqn:Hpc;
    try (destruct e); unfold step, _enable;
    repeat (progress (rewrite ?Hpc, ?Hp, ?Hq, ?loop_head_eq, ?wait_resolved_eq;
                      simpl));
    rewrite ?lookup_insert_eq;
    (split; [auto|split; [reflexivity|split; [|reflexivity]]]);
    intros a' Hne; rewrite ?lookup_insert_ne by congruence; reflexivity.
Qed.

Lemma run_snoc a l i s : run a (l ++ [i]) s = step a (run a l s) i.
Proof. unfold run. now rewrite foldl_app. Qed.

Lemma run_process a inputs : forall s,
  ~ In CloseCalled inputs ->
  _process (cm (run a inputs s)) = _process (cm s).
Proof.
  induction inputs as [|i inputs IH] using rev_ind; intros s Hnc; [reflexivity|].
  rewrite run_snoc.
  destruct (step_cm a (run a inputs s) i) as (Hp & _). rewrite Hp.
  destruct i; try (apply IH; intros Hin; apply Hnc, in_or_app; auto).
  exfalso. apply Hnc, in_or_app. right. left. reflexivity.
Qed.

(** X15: while [close()] is not called, the readiness event of the
    address is set only after some enable attempt has succeeded. *)
Theorem ready_only_after_enabled a c inputs :
  _process c = true ->
  _connected c !! a = Some false ->
  ~ In CloseCalled inputs ->
  _connected (cm (run a inputs (_restart a c))) !! a = Some true ->
  In (GatherDone Enabled) inputs.
Proof.
  intros Hp Hflag.
  assert (_process (cm (_restart a c)) = true /\
          _connected (cm (_restart a c)) !! a = Some false) as [Hp0 Hf0].
  { unfold _restart. rewrite Hflag, loop_head_eq. simpl. rewrite Hp. auto. }
  induction inputs as [|i inputs IH] using rev_ind; intros Hnc Hready.
  - simpl in Hready. congruence.
  - rewrite run_snoc in Hready. apply in_or_app.
    assert (~ In CloseCalled inputs) as Hnc'
      by (intros Hin; apply Hnc, in_or_app; auto).
    assert (_process (cm (run a inputs (_restart a c))) = true) as Hrun
      by (rewrite run_process by exact Hnc'; exact Hp0).
    destruct (step_cm a (run a inputs (_restart a c)) i) as (_ & _ & _ & Hfl).
    rewrite Hfl, Hrun in Hready.
    destruct i as [[|e]|v|]; [| | |].
    + right. left. reflexivity.
    + left. apply IH; [exact Hnc'|].
      destruct (at_pc (run a inputs (_restart a c))); try exact Hready;
        destruct e; try exact Hready; discriminate.
    + left. apply IH; [exact Hnc'|].
      destruct (at_pc (run a inputs (_restart a c))); exact Hready.
    + exfalso. apply Hnc, in_or_app. right. left. reflexivity.
Qed.

Lemma ready_only_after_enabled_witness :
  _connected
    (cm (run sample_mac [GatherDone (Failed TimeoutError); GatherDone Enabled]
           (_restart sample_mac sample))) !! sample_mac = Some true /\
  In (GatherDone Enabled) [GatherDone (Failed TimeoutError); GatherDone Enabled].
Proof.
  split; [reflexivity|].
  apply (ready_only_after_enabled sample_mac sample
           [GatherDone (Failed TimeoutError); GatherDone Enabled]).
  - reflexivity.
  - reflexivity.
  - intros [Hd|[Hd|[]]]; discriminate.
  - reflexivity.
Defined.

(** X16: the loop of one address leaves the groups of devices and the
    events of all other addresses as they are, whatever arrives. *)
Theorem run_isolated a inputs : forall s,
  _devices (cm (run a inputs s)) = _devices (cm s) /\
  forall a', a' <> a ->
    _connected (cm (run a inputs s)) !! a' = _connected (cm s) !! a'.
Proof.
  induction inputs as [|i inputs IH] using rev_ind; intros s; [auto|].
  rewrite run_snoc.
  destruct (step_cm a (run a inputs s) i) as (_ & Hd & Ho & _).
  destruct (IH s) as [IHd IHo].
  split; [now rewrite Hd|]. intros a' Hne. now rewrite Ho, IHo.
Qed.

Lemma run_isolated_witness :
  _connected
    (cm (run sample_mac [GatherDone Enabled] (_restart sample_mac sample)))
    !! "11:22:33:44:55:66"
  = _connected (cm (_restart sample_mac sample)) !! "11:22:33:44:55:66".
Proof.
  apply (proj2 (run_isolated sample_mac [GatherDone Enabled]
                  (_restart sample_mac sample))).
  discriminate.
Defined.

Lemma step_running a s i :
  _process (cm s) = true -> i <> CloseCalled ->
  at_pc s = AtGather \/ at_pc s = AtResolved ->
  at_pc (step a s i) = AtGather \/ at_pc (step a s i) = AtResolved.
Proof.
  intros Hp Hi Hpc.
  destruct (queue s) as [|v0 q'] eqn:Hq;
    destruct i as [[|e]|v|]; try congruence;
    destruct Hpc as [Hpc|Hpc];
    try (destruct e); unfold step, _enable;
    repeat (progress (rewrite ?Hpc, ?Hp, ?Hq, ?loop_head_eq, ?wait_resolved_eq;
                      simpl));
    auto.
Qed.

(** X17: the enable/wait loop of a managed address ends only through
    [close()]: as long as [_process] is not cleared the task is
    suspended either on an enable attempt or on the next
    [ServicesResolved] notification, whatever the attempts and
    notifications bring; it has neither exited nor raised. *)
Theorem loop_runs_until_close a c inputs :
  _process c = true ->
  is_Some (_connected c !! a) ->
  ~ In CloseCalled inputs ->
  at_pc (run a inputs (_restart a c)) = AtGather \/
  at_pc (run a inputs (_restart a c)) = AtResolved.
Proof.
  intros Hp [flag Hm].
  induction inputs as [|i inputs IH] using rev_ind; intros Hnc.
  - simpl. unfold _restart. rewrite Hm, loop_head_eq. simpl. rewrite Hp. auto.
  - rewrite run_snoc.
    assert (~ In CloseCalled inputs) as Hnc'
      by (intros Hin; apply Hnc, in_or_app; auto).
    apply step_running; [| |exact (IH Hnc')].
    + rewrite run_process by exact Hnc'.
      unfold _restart. rewrite Hm, loop_head_eq. simpl. now rewrite Hp.
    + intros ->. apply Hnc, in_or_app. right. left. reflexivity.
Qed.

Lemma loop_runs_until_close_witness :
  let s := run sample_mac
             [GatherDone (Failed (NativeError "Not connected")); Notified false;
              GatherDone (Failed TimeoutError)]
             (_restart sample_mac sample) in
  at_pc s = AtGather \/ at_pc s = AtResolved.
Proof.
  apply (loop_runs_until_close sample_mac sample).
  - reflexivity.
  - vm_compute. eauto.
  - intros [Hd|[Hd|[Hd|[]]]]; discriminate.
Defined.

Lemma step_stopped a s i :
  _process (cm s) = false ->
  _process (cm (step a s i)) = false /\
  count Attempt (acts (step a s i)) = count Attempt (acts s) /\
  count EnableCall (acts (step a s i)) = count EnableCall (acts s).
Proof.
  intros Hp.
  destruct (queue s) as [|v0 q'] eqn:Hq;
    destruct i as [[|e]|v|]; destruct (at_pc s) eqn:Hpc;
    try (destruct e); unfold step, _enable;
    repeat (progress (rewrite ?Hpc, ?Hp, ?Hq, ?loop_head_eq, ?wait_resolved_eq;
                      simpl));
    (split; [auto|]); repeat (rewrite count_app; simpl); lia.
Qed.

(** X18: once [close()] has cleared [_process], the task calls
    [enable()] no more and starts no further enable attempt, whatever
    completions and notifications still arrive. *)
Theorem no_attempt_after_close a inputs : forall s,
  _process (cm s) = false ->
  _process (cm (run a inputs s)) = false /\
  count Attempt (acts (run a inputs s)) = count Attempt (acts s) /\
  count EnableCall (acts (run a inputs s)) = count EnableCall (acts s).
Proof.
  induction inputs as [|i inputs IH] using rev_ind; intros s Hp; [auto|].
  rewrite run_snoc. destruct (IH s Hp) as (Hp' & HA & HE).
  destruct (step_stopped a (run a inputs s) i Hp') as (Hp'' & HA' & HE').
  split; [exact Hp''|]. split; congruence.
Qed.

Lemma no_attempt_after_close_witness :
  let s := step sample_mac (_restart sample_mac sample) CloseCalled in
  count Attempt
    (acts (run sample_mac [GatherDone (Failed TimeoutError); Notified true] s))
  = count Attempt (acts s).
Proof.
  cbv zeta.
  apply (no_attempt_after_close sample_mac
           [GatherDone (Failed TimeoutError); Notified true]).
  reflexivity.
Defined.

(** X19: an enable attempt that times out after [close()] has cleared
    [_process] makes [_enable] return as if it had succeeded: the
    readiness event of the address is set, although no device was
    enabled, and the task goes on to await a notification. *)
Theorem timeout_after_close_sets_ready a s :
  at_pc s = AtGather ->
  _process (cm s) = false ->
  let s' := step a s (GatherDone (Failed TimeoutError)) in
  _connected (cm s') !! a = Some true /\
  exists rest,
    acts s' = acts s ++ [TimeoutLogged; CnSet; AwaitResolved] ++ rest /\
    count Attempt rest = 0%nat.
Proof.
  intros Hpc Hp. cbv zeta.
  destruct (step_cm a s (GatherDone (Failed TimeoutError))) as (_ & _ & _ & Hfl).
  rewrite Hpc, Hp in Hfl. split; [exact Hfl|].
  unfold step, _enable. rewrite Hpc. simpl. rewrite Hp, wait_resolved_eq. simpl.
  rewrite Hp.
  destruct (queue s) as [|v q]; simpl; rewrite <- !app_assoc; simpl;
    eexists; (split; [reflexivity|reflexivity]).
Qed.

Lemma timeout_after_close_sets_ready_witness :
  let s := step sample_mac (_restart sample_mac sample) CloseCalled in
  _connected (cm (_restart sample_mac sample)) !! sample_mac = Some false /\
  _connected (cm (step sample_mac s (GatherDone (Failed TimeoutError))))
    !! sample_mac = Some true.
Proof.
  split; [reflexivity|].
  apply (timeout_after_close_sets_ready sample_mac
           (step sample_mac (_restart sample_mac sample) CloseCalled));
    reflexivity.
Defined.

End ConnectionManagerMore.
